(** * ART optimizing compiler: source maps and the compilation entry points

    A shallow embedding of
    - [compiler/compiled_method.h]: [SrcMapElem], [SrcMap] ([SortByFrom],
      [Arrange], [DeltaFormat]) and the [CompiledMethod] accessors;
    - [compiler/optimizing/optimizing_compiler.cc]: [TryCompile] and
      [Compile] of [OptimizingCompiler].

    Fixed-width integers are integers of [Z] with the wrap-around written
    out; a [std::vector] is a [list] read and updated by index. *)

From Stdlib Require Import ZArith Lia String.
From stdpp Require Import base tactics option list sorting.

Local Open Scope Z_scope.

(** ** Fixed-width arithmetic *)

Module Int.

(** What a [uint32_t] holds after an operation whose exact result is [z]. *)
Definition wrap_u32 (z : Z) : Z := z mod 2 ^ 32.

(** What an [int32_t] holds after an operation whose exact result is [z]
    (two's complement). *)
Definition wrap_s32 (z : Z) : Z := (z + 2 ^ 31) mod 2 ^ 32 - 2 ^ 31.

(** The same for [int64_t]. *)
Definition wrap_s64 (z : Z) : Z := (z + 2 ^ 63) mod 2 ^ 64 - 2 ^ 63.

Definition is_u32 (z : Z) : Prop := 0 <= z < 2 ^ 32.
Definition is_s32 (z : Z) : Prop := - 2 ^ 31 <= z < 2 ^ 31.
Definition is_s64 (z : Z) : Prop := - 2 ^ 63 <= z < 2 ^ 63.

End Int.

(** ** [std::sort] and [std::unique]

    [std::sort] is library code: the standard promises that the result is a
    rearrangement of the input in which no element is smaller than an
    earlier one, and nothing about the order of equivalent elements.  The
    development is parametric in an implementation with that contract. *)

Record StrictWeakOrder {A : Type} (lt : A -> A -> bool) : Prop := {
  swo_irrefl : forall x, lt x x = false;
  swo_trans : forall x y z, lt x y = true -> lt y z = true -> lt x z = true;
  swo_neg_trans : forall x y z, lt x z = true -> lt x y = true \/ lt y z = true
}.

(** [x] may stand before [y] in a range sorted with [lt]. *)
Definition not_after {A : Type} (lt : A -> A -> bool) (x y : A) : Prop :=
  lt y x = false.

#[global] Instance not_after_dec {A : Type} (lt : A -> A -> bool) (x y : A) :
  Decision (not_after lt x y).
Proof. unfold not_after. apply _. Defined.

Record StdSort : Type := {
  std_sort : forall A : Type, (A -> A -> bool) -> list A -> list A;
  std_sort_perm : forall A (lt : A -> A -> bool) (l : list A),
    Permutation (std_sort A lt l) l;
  std_sort_sorted : forall A (lt : A -> A -> bool) (l : list A),
    StrictWeakOrder lt -> StronglySorted (not_after lt) (std_sort A lt l)
}.

Arguments std_sort _ {A} _ _.

Section Unique.
Context {A : Type} (eqb : A -> A -> bool).

(** The loop of [std::unique]: [prev] is the last element kept, and an
    element equal to it is skipped. *)
Fixpoint unique_after (prev : A) (l : list A) : list A :=
  match l with
  | [] => []
  | x :: l' =>
      if eqb prev x then unique_after prev l' else x :: unique_after x l'
  end.

(** [std::unique] followed by the [resize] to the iterator it returns:
    of every run of consecutive equal elements the first is kept. *)
Definition std_unique (l : list A) : list A :=
  match l with
  | [] => []
  | x :: l' => x :: unique_after x l'
  end.

End Unique.

(** A conforming [std::sort]: merge sort. *)
Module MergeSort.

Definition sort {A : Type} (lt : A -> A -> bool) (l : list A) : list A :=
  merge_sort (not_after lt) l.

Definition impl : StdSort.
Proof.
  refine {| std_sort := @sort |}.
  - intros A lt l. apply merge_sort_Permutation.
  - intros A lt l [Hirr Htr Hneg].
    assert (Transitive (not_after lt)) as Htrans.
    { intros x y z Hxy Hyz. unfold not_after in *.
      destruct (lt z x) eqn:E; [|done].
      destruct (Hneg z y x E) as [H|H]; congruence. }
    assert (Total (not_after lt)) as Htot.
    { intros x y. unfold not_after.
      destruct (lt y x) eqn:E; [|by left]. right.
      destruct (lt x y) eqn:E'; [|done].
      pose proof (Htr _ _ _ E E') as H. rewrite Hirr in H. done. }
    apply StronglySorted_merge_sort; done.
Defined.

End MergeSort.

(** ** [SrcMapElem] and [SrcMap] ([compiled_method.h]) *)

Module SrcMap.
Import Int.

(** [from_] is a [uint32_t] native offset, [to_] an [int32_t] source line. *)
Record SrcMapElem : Type := mkElem { from_ : Z; to_ : Z }.

#[global] Instance SrcMapElem_eq_dec : EqDecision SrcMapElem.
Proof. solve_decision. Defined.

(** A value-initialised element, as [resize] would append. *)
#[global] Instance SrcMapElem_inhabited : Inhabited SrcMapElem :=
  populate (mkElem 0 0).

(** The values the two field types can hold. *)
Definition wf_elem (e : SrcMapElem) : Prop := is_u32 (from_ e) /\ is_s32 (to_ e).

(** [explicit operator int64_t()]: [(static_cast<int64_t>(to_) << 32) | from_]. *)
Definition to_int64 (e : SrcMapElem) : Z :=
  Z.lor (wrap_s64 (Z.shiftl (to_ e) 32)) (from_ e).

(** [operator<] *)
Definition elem_lt (a sme : SrcMapElem) : bool := to_int64 a <? to_int64 sme.

(** [operator==] *)
Definition elem_eq (a sme : SrcMapElem) : bool := to_int64 a =? to_int64 sme.

(** [explicit operator uint8_t()] *)
Definition to_uint8 (e : SrcMapElem) : Z := wrap_u32 (from_ e + to_ e) mod 2 ^ 8.

(** [SrcMap] is a [std::vector<SrcMapElem>]. *)
Abbreviation SrcMap := (list SrcMapElem).

Definition empty (m : SrcMap) : bool :=
  match m with [] => true | _ :: _ => false end.

Definition size (m : SrcMap) : nat := length m.

(** The comparison [SortByFrom] hands to [std::sort]. *)
Definition from_lt (lhs rhs : SrcMapElem) : bool := from_ lhs <? from_ rhs.

(** [a -= b] on both fields, each in its own type. *)
Definition sub_elem (a b : SrcMapElem) : SrcMapElem :=
  {| from_ := wrap_u32 (from_ a - from_ b); to_ := wrap_s32 (to_ a - to_ b) |}.

(** The scan [for (; i > 0; i--)] that breaks at the first [i] whose
    element has [from_ < highest_pc], started at [i]; the result is the
    index at which it stops. *)
Fixpoint scan_highest (v : SrcMap) (highest_pc : Z) (i : nat) : nat :=
  match i with
  | O => O
  | S i' =>
      if from_ (v !!! i) <? highest_pc then i
      else scan_highest v highest_pc i'
  end.

(** "get rid of the highest values": the scan from [size() - 1] and
    [resize(i + 1)]. *)
Definition drop_highest (highest_pc : Z) (v : SrcMap) : SrcMap :=
  let i := scan_highest v highest_pc (size v - 1)%nat in
  resize (i + 1)%nat inhabitant v.

(** [for (i = size(); --i >= 1; )] with the loop counter at [i]: the body
    rewrites element [i] from element [i - 1], which is still absolute. *)
Fixpoint delta_loop (i : nat) (v : SrcMap) : SrcMap :=
  match i with
  | O => v
  | S i' => delta_loop i' (<[i := sub_elem (v !!! i) (v !!! i')]> v)
  end.

Section WithSort.
Context (sorter : StdSort).

Definition SortByFrom (m : SrcMap) : SrcMap := std_sort sorter from_lt m.

(** [Arrange]: [shrink_to_fit] changes no element. *)
Definition Arrange (m : SrcMap) : SrcMap :=
  if empty m then m
  else std_unique elem_eq (std_sort sorter elem_lt m).

(** [DeltaFormat].  [kIsDebugBuild] says whether [DCHECK] is compiled in;
    [None] is the abort of a failed [DCHECK]. *)
Definition DeltaFormat (kIsDebugBuild : bool) (start : SrcMapElem)
    (highest_pc : Z) (m : SrcMap) : option SrcMap :=
  if empty m then Some m
  else
    let v := SortByFrom m in
    let v := drop_highest highest_pc v in
    let v := delta_loop (size v - 1)%nat v in
    if kIsDebugBuild && negb (from_ (v !!! 0%nat) >=? from_ start) then None
    else Some (<[0%nat := sub_elem (v !!! 0%nat) start]> v).

End WithSort.

(** *** The decoder the encoding is meant for *)

(** [d += base] on both fields, each in its own type. *)
Definition add_elem (d base : SrcMapElem) : SrcMapElem :=
  {| from_ := wrap_u32 (from_ d + from_ base); to_ := wrap_s32 (to_ d + to_ base) |}.

(** Prefix-summing a delta stream from [prev]: the first entry is added to
    [prev], every later one to the entry reconstructed before it. *)
Fixpoint prefix_sum (prev : SrcMapElem) (d : SrcMap) : SrcMap :=
  match d with
  | [] => []
  | x :: d' => let y := add_elem x prev in y :: prefix_sum y d'
  end.

(** The delta stream of [l] relative to [prev], written by recursion on the
    list; [delta_loop] computes it in place. *)
Fixpoint deltas_from (prev : SrcMapElem) (l : SrcMap) : SrcMap :=
  match l with
  | [] => []
  | x :: l' => sub_elem x prev :: deltas_from x l'
  end.

(** The gaps between consecutive native offsets, the first one counted
    from [prev], in exact arithmetic. *)
Fixpoint offset_gaps (prev : Z) (l : SrcMap) : list Z :=
  match l with
  | [] => []
  | x :: l' => (from_ x - prev) :: offset_gaps (from_ x) l'
  end.

(** An entry below the threshold [highest_pc]. *)
Definition below (highest_pc : Z) (e : SrcMapElem) : Prop := from_ e < highest_pc.

#[global] Instance below_dec highest_pc e : Decision (below highest_pc e).
Proof. unfold below. apply _. Defined.

(** [operator<] orders by source line first and native offset second. *)
Definition line_then_offset (a b : SrcMapElem) : Prop :=
  to_ a < to_ b \/ (to_ a = to_ b /\ from_ a < from_ b).

(** Scenario E of the specification. *)
Definition scenario_E : SrcMap := [mkElem 30 5; mkElem 10 2; mkElem 20 2].

End SrcMap.


(** ** The compiled-method record ([compiled_method.h]) *)

Module Compiled.
Import SrcMap.

(** [InstructionSet] is declared in [instruction_set.h]; these are the
    enumerators the compiler names, and [kOtherIsa] stands for every other
    one. *)
Inductive InstructionSet : Type :=
  | kArm
  | kThumb2
  | kX86
  | kX86_64
  | kOtherIsa (tag : nat).

#[global] Instance InstructionSet_eq_dec : EqDecision InstructionSet.
Proof. solve_decision. Defined.

(** The members of [CompiledCode] a quick-code constructor fills. *)
Record CompiledCode : Type := {
  instruction_set_ : InstructionSet;
  quick_code_ : list Byte.byte
}.

(** [CompiledMethod] extends [CompiledCode]. *)
Record CompiledMethod : Type := {
  compiled_code : CompiledCode;
  frame_size_in_bytes_ : Z;
  core_spill_mask_ : Z;
  fp_spill_mask_ : Z;
  src_mapping_table_ : SrcMap;
  mapping_table_ : list Byte.byte;
  vmap_table_ : list Byte.byte;
  gc_map_ : list Byte.byte;
  cfi_info_ : list Byte.byte
}.

Definition GetInstructionSet (m : CompiledMethod) : InstructionSet :=
  instruction_set_ (compiled_code m).

Definition GetQuickCode (m : CompiledMethod) : list Byte.byte :=
  quick_code_ (compiled_code m).

Definition GetFrameSizeInBytes (m : CompiledMethod) : Z := frame_size_in_bytes_ m.

Definition GetCoreSpillMask (m : CompiledMethod) : Z := core_spill_mask_ m.

Definition GetFpSpillMask (m : CompiledMethod) : Z := fp_spill_mask_ m.

Definition GetSrcMappingTable (m : CompiledMethod) : SrcMap := src_mapping_table_ m.

Definition GetMappingTable (m : CompiledMethod) : list Byte.byte := mapping_table_ m.

Definition GetVmapTable (m : CompiledMethod) : list Byte.byte := vmap_table_ m.

Definition GetGcMap (m : CompiledMethod) : list Byte.byte := gc_map_ m.

Definition GetCFIInfo (m : CompiledMethod) : list Byte.byte := cfi_info_ m.

(** Modelled from the spec: [SwapAllocCompiledMethod] and the constructor it
    calls are defined in [compiled_method.cc], which is not among the
    sources.  The specification has the packager assemble "emitted bytes,
    frame metadata, spill masks, and encoded tables into an immutable
    compiled-method record", and has it invoke [Arrange] on the source map
    "for lookup-oriented use": the source map, which the header takes as a
    pointer to a mutable [DefaultSrcMap], is arranged and then kept; every
    other member holds the argument given for it.  [sorter] is the
    [std::sort] that [Arrange] runs.  How the tables are stored and shared
    is left out. *)
Definition SwapAllocCompiledMethod (sorter : StdSort)
    (instruction_set : InstructionSet) (quick_code : list Byte.byte)
    (frame_size_in_bytes core_spill_mask fp_spill_mask : Z)
    (src_mapping_table : SrcMap)
    (mapping_table vmap_table native_gc_map cfi_info : list Byte.byte)
    : CompiledMethod :=
  {| compiled_code :=
       {| instruction_set_ := instruction_set; quick_code_ := quick_code |};
     frame_size_in_bytes_ := frame_size_in_bytes;
     core_spill_mask_ := core_spill_mask;
     fp_spill_mask_ := fp_spill_mask;
     src_mapping_table_ := Arrange sorter src_mapping_table;
     mapping_table_ := mapping_table;
     vmap_table_ := vmap_table;
     gc_map_ := native_gc_map;
     cfi_info_ := cfi_info |}.

End Compiled.

(** ** [OptimizingCompiler] ([optimizing_compiler.cc]) *)

Module Optimizing.
Import SrcMap Compiled.

(** The arguments of [Compile] and [TryCompile]; pointers and references
    are opaque handles. *)
Record MethodArgs : Type := {
  code_item : nat;
  access_flags : Z;
  invoke_type : Z;
  class_def_idx : Z;
  method_idx : Z;
  class_loader : nat;
  dex_file : nat
}.

(** The pass names given to [DumpGraph]: string literals, and two constants
    declared in headers of the liveness analysis and the allocator. *)
Inductive PassName : Type :=
  | Literal (name : string)
  | kLivenessPassName
  | kRegisterAllocatorPassName.

(** The calls [TryCompile] and [Compile] make on their collaborators, in
    the order of the source text. *)
Inductive Stage : Type :=
  | MakeDexCompilationUnit (args : MethodArgs)
  | BuildGraph (args : MethodArgs)
  | CreateCodeGenerator (instruction_set : InstructionSet)
  | DumpGraph (pass : PassName)
  | BuildDominatorTree
  | TransformToSSA
  | FindNaturalLoops
  | SsaRedundantPhiElimination
  | SsaDeadPhiElimination
  | LivenessAnalyze
  | AllocateRegisters
  | CompileOptimized
  | CompileBaseline
  | BuildMappingTable (with_src_map : bool)
  | BuildVMapTable
  | BuildNativeGCMap
  | DelegateCompile (args : MethodArgs).

#[global] Instance string_eq_dec : EqDecision string := String.string_dec.

#[global] Instance MethodArgs_eq_dec : EqDecision MethodArgs.
Proof. solve_decision. Defined.

#[global] Instance PassName_eq_dec : EqDecision PassName.
Proof. solve_decision. Defined.

#[global] Instance Stage_eq_dec : EqDecision Stage.
Proof. solve_decision. Defined.

(** How a call ends: with a value, or in [LOG(FATAL)], which aborts. *)
Inductive Outcome (A : Type) : Type :=
  | Returned (a : A)
  | Fatal (message : string).

Arguments Returned {A} a.
Arguments Fatal {A} message.

(** The collaborators: the driver, the graph builder, the graph, the code
    generator, the allocator, the visualizer and the delegate.  Their state
    is a value of [W]; [run] is what a call does to it, the other fields
    read it. *)
Record Collaborators (W : Type) : Type := {
  run : Stage -> W -> W;
  (** [GetCompilerDriver()->GetInstructionSet()] *)
  driver_instruction_set : W -> InstructionSet;
  (** [dex_compilation_unit.GetSymbol()] *)
  GetSymbol : W -> string;
  (** [graph == nullptr] after [BuildGraph] *)
  graph_is_null : W -> bool;
  (** [codegen == nullptr] after [CodeGenerator::Create] *)
  codegen_is_null : W -> bool;
  (** [RegisterAllocator::CanAllocateRegistersFor( *graph, instruction_set)] *)
  CanAllocateRegistersFor : W -> InstructionSet -> bool;
  (** [RegisterAllocator::Supports(instruction_set)] *)
  Supports : InstructionSet -> bool;
  (** [GetCompilerOptions().GetIncludeDebugSymbols()] *)
  GetIncludeDebugSymbols : W -> bool;
  (** [allocator.GetMemory()] *)
  GetMemory : W -> list Byte.byte;
  (** [codegen->GetFrameSize()] *)
  GetFrameSize : W -> Z;
  (** [codegen->GetCoreSpillMask()] *)
  codegen_GetCoreSpillMask : W -> Z;
  (** Modelled from the spec: the floating-point callee-save mask of the
      code generator ("a callee-save spill bitmask (core and floating-point
      separately)"); the class is declared in [code_generator.h], which is
      not among the sources, and [TryCompile] never reads this mask. *)
  codegen_fp_spill_mask : W -> Z;
  (** the tables the [Build...] calls fill; the source map is what
      [BuildMappingTable] writes when it is given one *)
  src_mapping_table : W -> SrcMap;
  mapping_table : W -> list Byte.byte;
  vmap_table : W -> list Byte.byte;
  gc_map : W -> list Byte.byte;
  (** what the last [delegate_->Compile] returned *)
  delegate_result : W -> option CompiledMethod;
  (** the [std::sort] of the library, which the [Arrange] of the
      constructor runs *)
  library_sort : StdSort
}.

Arguments run {W} _ _ _.
Arguments driver_instruction_set {W} _ _.
Arguments GetSymbol {W} _ _.
Arguments graph_is_null {W} _ _.
Arguments codegen_is_null {W} _ _.
Arguments CanAllocateRegistersFor {W} _ _ _.
Arguments Supports {W} _ _.
Arguments GetIncludeDebugSymbols {W} _ _.
Arguments GetMemory {W} _ _.
Arguments GetFrameSize {W} _ _.
Arguments codegen_GetCoreSpillMask {W} _ _.
Arguments codegen_fp_spill_mask {W} _ _.
Arguments src_mapping_table {W} _ _.
Arguments mapping_table {W} _ _.
Arguments vmap_table {W} _ _.
Arguments gc_map {W} _ _.
Arguments delegate_result {W} _ _.
Arguments library_sort {W} _.

(** [s.find(pattern) != std::string::npos] *)
Definition contains (pattern s : string) : bool :=
  match String.index 0 pattern s with
  | Some _ => true
  | None => false
  end.

Section Pipeline.
Context {W : Type} (C : Collaborators W).

(** A computation over the collaborators' state and the log of the calls
    made so far; the log survives a fatal error. *)
Definition M (A : Type) : Type := W * list Stage -> Outcome A * (W * list Stage).

Definition ret {A : Type} (a : A) : M A := fun s => (Returned a, s).

Definition bind {A B : Type} (c : M A) (k : A -> M B) : M B :=
  fun s =>
    match c s with
    | (Returned a, s') => k a s'
    | (Fatal message, s') => (Fatal message, s')
    end.

Definition call (st : Stage) : M unit :=
  fun s => (Returned tt, (run C st (fst s), snd s ++ [st])).

Definition ask {A : Type} (f : W -> A) : M A :=
  fun s => (Returned (f (fst s)), s).

Definition LOG_FATAL {A : Type} (message : string) : M A :=
  fun s => (Fatal message, s).

End Pipeline.

Declare Scope pipeline_scope.
Delimit Scope pipeline_scope with pipeline.
Notation "x <- c ;; k" := (bind c (fun x => k))
  (at level 100, c at next level, right associativity) : pipeline_scope.
Notation "c ;; k" := (bind c (fun _ => k))
  (at level 100, right associativity) : pipeline_scope.

Section Compiler.
Context {W : Type} (C : Collaborators W).
Local Open Scope pipeline_scope.

Definition TryCompile (args : MethodArgs) : M (option CompiledMethod) :=
  instruction_set <- ask (driver_instruction_set C) ;;
  (* Always use the thumb2 assembler. *)
  let instruction_set :=
    if decide (instruction_set = kArm) then kThumb2 else instruction_set in
  (* Do not attempt to compile on architectures we do not support. *)
  if bool_decide (instruction_set <> kX86)
     && bool_decide (instruction_set <> kX86_64)
     && bool_decide (instruction_set <> kThumb2)
  then ret None
  else
    call C (MakeDexCompilationUnit args) ;;
    symbol <- ask (GetSymbol C) ;;
    let shouldCompile := contains "00024opt_00024" symbol in
    let shouldOptimize := contains "00024reg_00024" symbol in
    call C (BuildGraph args) ;;
    graph_null <- ask (graph_is_null C) ;;
    if graph_null : bool then
      if shouldCompile
      then LOG_FATAL "Could not build graph in optimizing compiler"
      else ret None
    else
      call C (CreateCodeGenerator instruction_set) ;;
      codegen_null <- ask (codegen_is_null C) ;;
      if codegen_null : bool then
        if shouldCompile
        then LOG_FATAL "Could not find code generator for optimizing compiler"
        else ret None
      else
        call C (DumpGraph (Literal "builder")) ;;
        can_allocate <- ask (fun w => CanAllocateRegistersFor C w instruction_set) ;;
        (if can_allocate : bool then
           call C BuildDominatorTree ;;
           call C TransformToSSA ;;
           call C (DumpGraph (Literal "ssa")) ;;
           call C FindNaturalLoops ;;
           call C SsaRedundantPhiElimination ;;
           call C SsaDeadPhiElimination ;;
           call C LivenessAnalyze ;;
           call C (DumpGraph kLivenessPassName) ;;
           call C AllocateRegisters ;;
           call C (DumpGraph kRegisterAllocatorPassName) ;;
           call C CompileOptimized
         else if shouldOptimize && Supports C instruction_set then
           LOG_FATAL "Could not allocate registers in optimizing compiler"
         else
           call C CompileBaseline ;;
           (* Run these phases to get some test coverage. *)
           call C BuildDominatorTree ;;
           call C TransformToSSA ;;
           call C (DumpGraph (Literal "ssa")) ;;
           call C FindNaturalLoops ;;
           call C LivenessAnalyze ;;
           call C (DumpGraph kLivenessPassName)) ;;
        include_debug_symbols <- ask (GetIncludeDebugSymbols C) ;;
        call C (BuildMappingTable include_debug_symbols) ;;
        call C BuildVMapTable ;;
        call C BuildNativeGCMap ;;
        w <- ask id ;;
        (* The local [src_mapping_table] is declared empty and is filled
           only when [BuildMappingTable] was given it. *)
        let src_mapping_table_local :=
          if include_debug_symbols : bool then src_mapping_table C w
          else [] in
        ret (Some (SwapAllocCompiledMethod
                     (library_sort C)
                     instruction_set
                     (GetMemory C w)
                     (GetFrameSize C w)
                     (codegen_GetCoreSpillMask C w)
                     0 (* FPR spill mask, unused *)
                     src_mapping_table_local
                     (mapping_table C w)
                     (vmap_table C w)
                     (gc_map C w)
                     [])).

Definition Compile (args : MethodArgs) : M (option CompiledMethod) :=
  method <- TryCompile args ;;
  match method with
  | Some m => ret (Some m)
  | None =>
      call C (DelegateCompile args) ;;
      ask (delegate_result C)
  end.


(** The state after a sequence of calls. *)
Definition after (stages : list Stage) (w : W) : W :=
  fold_left (fun w st => run C st w) stages w.

End Compiler.

(** The calls of the baseline path, in order. *)
Definition baseline_calls (args : MethodArgs) (i : InstructionSet)
    (with_src_map : bool) : list Stage :=
  [ MakeDexCompilationUnit args; BuildGraph args; CreateCodeGenerator i;
    DumpGraph (Literal "builder");
    CompileBaseline;
    BuildDominatorTree; TransformToSSA; DumpGraph (Literal "ssa");
    FindNaturalLoops; LivenessAnalyze; DumpGraph kLivenessPassName;
    BuildMappingTable with_src_map; BuildVMapTable; BuildNativeGCMap ].

(** The calls of the optimizing path, in order. *)
Definition optimized_calls (args : MethodArgs) (i : InstructionSet)
    (with_src_map : bool) : list Stage :=
  [ MakeDexCompilationUnit args; BuildGraph args; CreateCodeGenerator i;
    DumpGraph (Literal "builder");
    BuildDominatorTree; TransformToSSA; DumpGraph (Literal "ssa");
    FindNaturalLoops; SsaRedundantPhiElimination; SsaDeadPhiElimination;
    LivenessAnalyze; DumpGraph kLivenessPassName;
    AllocateRegisters; DumpGraph kRegisterAllocatorPassName;
    CompileOptimized;
    BuildMappingTable with_src_map; BuildVMapTable; BuildNativeGCMap ].

End Optimizing.

(** ** Scripted collaborators, to run the pipeline on *)

Module Script.
Import SrcMap Compiled Optimizing.

(** Collaborators that answer from a fixed script and keep no state. *)
Record script : Type := {
  isa : InstructionSet;
  symbol : string;
  no_graph : bool;
  no_codegen : bool;
  can_allocate : bool;
  debug_symbols : bool;
  code : list Byte.byte;
  frame_size : Z;
  core_mask : Z;
  fp_mask : Z;
  delegate : option CompiledMethod
}.

Definition collaborators : Collaborators script :=
  {| run := fun _ w => w;
     driver_instruction_set := isa;
     GetSymbol := symbol;
     graph_is_null := no_graph;
     codegen_is_null := no_codegen;
     CanAllocateRegistersFor := fun w _ => can_allocate w;
     Supports := fun _ => true;
     GetIncludeDebugSymbols := debug_symbols;
     GetMemory := code;
     GetFrameSize := frame_size;
     codegen_GetCoreSpillMask := core_mask;
     codegen_fp_spill_mask := fp_mask;
     src_mapping_table := fun _ => [];
     mapping_table := fun _ => [];
     vmap_table := fun _ => [];
     gc_map := fun _ => [];
     delegate_result := delegate;
     library_sort := MergeSort.impl |}.

Definition args : MethodArgs :=
  {| code_item := 1; access_flags := 9; invoke_type := 0; class_def_idx := 0;
     method_idx := 7; class_loader := 0; dex_file := 1 |}.

(** A method compiled by the delegate. *)
Definition quick_method : CompiledMethod :=
  SwapAllocCompiledMethod MergeSort.impl (kOtherIsa 0) [] 32 0 0 [] [] [] [] [].

(** An x86 method the allocator cannot handle. *)
Definition x86_baseline : script :=
  {| isa := kX86; symbol := "void Main.run()";
     no_graph := false; no_codegen := false;
     can_allocate := false; debug_symbols := false;
     code := [Byte.x55; Byte.xc3]; frame_size := 16;
     core_mask := 32; fp_mask := 65280;
     delegate := Some quick_method |}.

(** An ARM method the allocator can handle. *)
Definition arm_optimized : script :=
  {| isa := kArm; symbol := "int Main.id(int)";
     no_graph := false; no_codegen := false;
     can_allocate := true; debug_symbols := true;
     code := [Byte.x70; Byte.x47]; frame_size := 32;
     core_mask := 16384; fp_mask := 65280;
     delegate := None |}.

(** A method for an instruction set [TryCompile] does not handle. *)
Definition other_isa : script :=
  {| isa := kOtherIsa 0; symbol := "void Main.run()";
     no_graph := false; no_codegen := false;
     can_allocate := false; debug_symbols := false;
     code := []; frame_size := 0;
     core_mask := 0; fp_mask := 0;
     delegate := Some quick_method |}.

(** The same, with a delegate that cannot compile the method either. *)
Definition other_isa_no_delegate : script :=
  {| isa := kOtherIsa 0; symbol := "void Main.run()";
     no_graph := false; no_codegen := false;
     can_allocate := false; debug_symbols := false;
     code := []; frame_size := 0;
     core_mask := 0; fp_mask := 0;
     delegate := None |}.

(** An x86 method marked for this compiler whose graph cannot be built. *)
Definition marked_no_graph : script :=
  {| isa := kX86; symbol := "_ZN4Main13_00024opt_00024runEv";
     no_graph := true; no_codegen := false;
     can_allocate := false; debug_symbols := false;
     code := []; frame_size := 0;
     core_mask := 0; fp_mask := 0;
     delegate := Some quick_method |}.

(** An x86 method marked for register allocation that the allocator
    cannot handle. *)
Definition marked_no_registers : script :=
  {| isa := kX86; symbol := "_ZN4Main13_00024reg_00024runEv";
     no_graph := false; no_codegen := false;
     can_allocate := false; debug_symbols := false;
     code := []; frame_size := 0;
     core_mask := 0; fp_mask := 0;
     delegate := Some quick_method |}.

End Script.


(** ** [FindByTo] and [std::lower_bound] ([compiled_method.h]) *)

Module Lookup.
Import SrcMap.

Section LowerBound.
Context {A : Type} (lt : A -> A -> bool).

(** The loop of [std::lower_bound]: [len] elements are left from index
    [first]; the middle one decides which half is kept.  Every iteration
    makes [len] smaller, so [fuel] iterations are enough when [len] is at
    most [fuel]. *)
Fixpoint lower_bound_loop (fuel : nat) (v : list A) (value : A)
    (first len : nat) : nat :=
  match fuel with
  | O => first
  | S fuel' =>
      if bool_decide (0 < len)%nat then
        let half := (len / 2)%nat in
        let middle := (first + half)%nat in
        match v !! middle with
        | Some x =>
            if lt x value
            then lower_bound_loop fuel' v value (middle + 1) (len - half - 1)
            else lower_bound_loop fuel' v value first half
        | None => first
        end
      else first
  end.

(** [std::lower_bound(begin(), end(), value)], as an index from [begin()];
    [end()] is the length. *)
Definition std_lower_bound (v : list A) (value : A) : nat :=
  lower_bound_loop (length v) v value 0 (length v).

End LowerBound.

(** [FindByTo]: the iterator is an index into the map. *)
Definition FindByTo (to : Z) (m : SrcMap) : nat :=
  std_lower_bound elem_lt m (mkElem 0 to).

(** The entries of source line [to]. *)
Definition on_line (to : Z) (e : SrcMapElem) : Prop := to_ e = to.

(** The entries of a source line before [to]. *)
Definition before_line (to : Z) (e : SrcMapElem) : Prop := to_ e < to.

#[global] Instance before_line_dec to e : Decision (before_line to e).
Proof. unfold before_line. apply _. Defined.

End Lookup.

(** ** [CodeVectorAllocator] ([optimizing_compiler.cc]) *)

Module CodeVectorAllocator.

(** [size_] has no initializer in the constructor: it holds nothing
    definite before the first [Allocate]. *)
Record t : Type := {
  memory_ : list Byte.byte;
  size_ : option nat
}.

(** The constructor. *)
Definition create : t := {| memory_ := []; size_ := None |}.

(** [Allocate]: [resize] keeps the bytes that fit and appends zero bytes.
    The pointer returned is the address of [memory_[0]]; it is not part of
    the state. *)
Definition Allocate (size : nat) (a : t) : t :=
  {| memory_ := resize size Byte.x00 (memory_ a); size_ := Some size |}.

Definition GetSize (a : t) : option nat := size_ a.

Definition GetMemory (a : t) : list Byte.byte := memory_ a.

(** A sequence of [Allocate] calls on a fresh allocator. *)
Definition allocate_all (sizes : list nat) : t :=
  fold_left (fun a size => Allocate size a) sizes create.

End CodeVectorAllocator.

(** ** The decisions of [TryCompile], named *)

Module Decisions.
Import Compiled Optimizing.

Section WithCollaborators.
Context {W : Type} (C : Collaborators W).

(** [instruction_set] once ARM has been replaced. *)
Definition target (w : W) : InstructionSet :=
  if decide (driver_instruction_set C w = kArm) then kThumb2
  else driver_instruction_set C w.

(** The instruction set passes the test "architectures we support". *)
Definition supported (w : W) : Prop := target w ∈ [kThumb2; kX86; kX86_64].

#[global] Instance supported_dec w : Decision (supported w).
Proof. unfold supported. apply _. Defined.

(** The calls up to the choice of a code generation mode. *)
Definition prologue (args : MethodArgs) (w : W) : list Stage :=
  [MakeDexCompilationUnit args; BuildGraph args;
   CreateCodeGenerator (target w); DumpGraph (Literal "builder")].

(** The locals [shouldCompile] and [shouldOptimize]. *)
Definition shouldCompile (args : MethodArgs) (w : W) : bool :=
  contains "00024opt_00024" (GetSymbol C (after C (take 1 (prologue args w)) w)).

Definition shouldOptimize (args : MethodArgs) (w : W) : bool :=
  contains "00024reg_00024" (GetSymbol C (after C (take 1 (prologue args w)) w)).

(** [graph == nullptr], [codegen == nullptr] and the allocator's check, at
    the moment [TryCompile] reads them. *)
Definition no_graph (args : MethodArgs) (w : W) : bool :=
  graph_is_null C (after C (take 2 (prologue args w)) w).

Definition no_codegen (args : MethodArgs) (w : W) : bool :=
  codegen_is_null C (after C (take 3 (prologue args w)) w).

Definition can_allocate (args : MethodArgs) (w : W) : bool :=
  CanAllocateRegistersFor C (after C (prologue args w) w) (target w).

(** The calls between the prologue and the tables, in each mode. *)
Definition optimized_body : list Stage :=
  [BuildDominatorTree; TransformToSSA; DumpGraph (Literal "ssa");
   FindNaturalLoops; SsaRedundantPhiElimination; SsaDeadPhiElimination;
   LivenessAnalyze; DumpGraph kLivenessPassName;
   AllocateRegisters; DumpGraph kRegisterAllocatorPassName;
   CompileOptimized].

Definition baseline_body : list Stage :=
  [CompileBaseline;
   BuildDominatorTree; TransformToSSA; DumpGraph (Literal "ssa");
   FindNaturalLoops; LivenessAnalyze; DumpGraph kLivenessPassName].

(** The calls that fill the tables. *)
Definition table_calls (with_src_map : bool) : list Stage :=
  [BuildMappingTable with_src_map; BuildVMapTable; BuildNativeGCMap].

(** The forced-optimize marker applies: the method is marked and the
    instruction set is one the allocator supports. *)
Definition allocation_forced (args : MethodArgs) (w : W) : bool :=
  shouldOptimize args w && Supports C (target w).

(** All the calls of a compilation in each mode; the source map is handed
    to [BuildMappingTable] when debug symbols are asked for at that
    moment. *)
Definition optimized_path (args : MethodArgs) (w : W) : list Stage :=
  let calls := prologue args w ++ optimized_body in
  calls ++ table_calls (GetIncludeDebugSymbols C (after C calls w)).

Definition baseline_path (args : MethodArgs) (w : W) : list Stage :=
  let calls := prologue args w ++ baseline_body in
  calls ++ table_calls (GetIncludeDebugSymbols C (after C calls w)).

(** Debug symbols are asked for when [TryCompile] reads the option, after
    the prologue and the calls [body] of a mode. *)
Definition source_map_wanted (body : list Stage) (args : MethodArgs) (w : W)
    : bool :=
  GetIncludeDebugSymbols C (after C (prologue args w ++ body) w).

(** The record [TryCompile] builds for a compilation started in state [w]
    and ended in state [w'], in which [BuildMappingTable] was given the
    source map or not. *)
Definition compiled (with_src_map : bool) (w w' : W) : CompiledMethod :=
  SwapAllocCompiledMethod (library_sort C) (target w) (GetMemory C w')
    (GetFrameSize C w') (codegen_GetCoreSpillMask C w') 0
    (if with_src_map then src_mapping_table C w' else [])
    (mapping_table C w') (vmap_table C w') (gc_map C w') [].

End WithCollaborators.

End Decisions.

(** ** Scripted collaborators with tables *)

Module TableScript.
Import SrcMap Compiled Optimizing.

(** The source map the scripted code generator writes: neither sorted nor
    free of duplicates. *)
Definition raw_src_map : SrcMap :=
  [mkElem 30 5; mkElem 10 2; mkElem 30 5; mkElem 20 2].

(** [Script.collaborators] with a code generator that fills the tables. *)
Definition collaborators : Collaborators Script.script :=
  {| run := fun _ w => w;
     driver_instruction_set := Script.isa;
     GetSymbol := Script.symbol;
     graph_is_null := Script.no_graph;
     codegen_is_null := Script.no_codegen;
     CanAllocateRegistersFor := fun w _ => Script.can_allocate w;
     Supports := fun _ => true;
     GetIncludeDebugSymbols := Script.debug_symbols;
     GetMemory := Script.code;
     GetFrameSize := Script.frame_size;
     codegen_GetCoreSpillMask := Script.core_mask;
     codegen_fp_spill_mask := Script.fp_mask;
     src_mapping_table := fun _ => raw_src_map;
     mapping_table := fun _ => [Byte.x02; Byte.x0a; Byte.x00];
     vmap_table := fun _ => [Byte.x01; Byte.x05];
     gc_map := fun _ => [Byte.x00; Byte.x01];
     delegate_result := Script.delegate;
     library_sort := MergeSort.impl |}.

End TableScript.
(** ** Facts on fixed-width arithmetic *)

Module IntFacts.
Import Int.

Lemma wrap_u32_range z : is_u32 (wrap_u32 z).
Proof. unfold is_u32, wrap_u32. apply Z.mod_pos_bound. lia. Qed.

Lemma wrap_s32_range z : is_s32 (wrap_s32 z).
Proof.
  unfold is_s32, wrap_s32.
  pose proof (Z.mod_pos_bound (z + 2 ^ 31) (2 ^ 32)). lia.
Qed.

Lemma wrap_u32_id z : is_u32 z -> wrap_u32 z = z.
Proof. unfold is_u32, wrap_u32. intros H. apply Z.mod_small. lia. Qed.

Lemma wrap_s32_id z : is_s32 z -> wrap_s32 z = z.
Proof.
  unfold is_s32, wrap_s32. intros H. rewrite Z.mod_small; lia.
Qed.

Lemma wrap_s64_id z : is_s64 z -> wrap_s64 z = z.
Proof.
  unfold is_s64, wrap_s64. intros H. rewrite Z.mod_small; lia.
Qed.

(** Adding back what was subtracted, both modulo [2^32]. *)
Lemma wrap_u32_add_sub a b : is_u32 a -> wrap_u32 (wrap_u32 (a - b) + b) = a.
Proof.
  intros H. unfold wrap_u32.
  rewrite Zplus_mod_idemp_l. replace (a - b + b) with a by lia.
  apply Z.mod_small. exact H.
Qed.

Lemma wrap_s32_add_sub a b : is_s32 a -> wrap_s32 (wrap_s32 (a - b) + b) = a.
Proof.
  intros H. unfold wrap_s32.
  replace ((a - b + 2 ^ 31) mod 2 ^ 32 - 2 ^ 31 + b + 2 ^ 31)
      with ((a - b + 2 ^ 31) mod 2 ^ 32 + b) by lia.
  rewrite Zplus_mod_idemp_l.
  replace (a - b + 2 ^ 31 + b) with (a + 2 ^ 31) by lia.
  unfold is_s32 in H. rewrite Z.mod_small; lia.
Qed.

End IntFacts.


(** ** Facts on source maps *)

Module SrcMapFacts.
Import Int IntFacts SrcMap.

Create HintDb srcmap discriminated.

(** *** Arithmetic of one element *)

Lemma sub_elem_wf a b : wf_elem (sub_elem a b).
Proof. split; [apply wrap_u32_range | apply wrap_s32_range]. Qed.

Lemma add_elem_wf a b : wf_elem (add_elem a b).
Proof. split; [apply wrap_u32_range | apply wrap_s32_range]. Qed.

Lemma add_sub_elem x prev : wf_elem x -> add_elem (sub_elem x prev) prev = x.
Proof.
  intros [Hf Ht]. destruct x as [f t]. unfold add_elem, sub_elem. simpl in *.
  by rewrite wrap_u32_add_sub, wrap_s32_add_sub.
Qed.

#[global] Hint Resolve sub_elem_wf add_elem_wf : srcmap.

(** *** The in-place loop computes the delta stream *)

Lemma delta_loop_length i v : length (delta_loop i v) = length v.
Proof.
  revert v. induction i as [|i IH]; intros v; cbn [delta_loop]; [done|].
  by rewrite IH, length_insert.
Qed.

(** The loop started at [i] leaves everything beyond index [i] alone. *)
Lemma delta_loop_app i (l1 l2 : SrcMap) :
  (i < length l1)%nat -> delta_loop i (l1 ++ l2) = delta_loop i l1 ++ l2.
Proof.
  revert l1. induction i as [|i IH]; intros l1 Hi; cbn [delta_loop]; [done|].
  rewrite !lookup_total_app_l by lia.
  rewrite insert_app_l by lia.
  apply IH. rewrite length_insert. lia.
Qed.

Lemma deltas_from_snoc prev (l : SrcMap) x :
  deltas_from prev (l ++ [x])
  = deltas_from prev l ++ [sub_elem x (default prev (last l))].
Proof.
  revert prev. induction l as [|y l IH]; intros prev; simpl; [done|].
  rewrite IH. do 3 f_equal.
  destruct l as [|z l]; [done|].
  rewrite last_cons_cons. by destruct (last (z :: l)) eqn:E; [|apply last_None in E].
Qed.

Lemma lookup_total_last x (l : SrcMap) :
  (x :: l) !!! length l = default x (last l).
Proof.
  revert x. induction l as [|y l IH]; intros x; [done|].
  change ((x :: y :: l) !!! length (y :: l)) with ((y :: l) !!! length l).
  rewrite IH. destruct l as [|z l]; [done|].
  rewrite last_cons_cons.
  by destruct (last (z :: l)) eqn:E; [|apply last_None in E].
Qed.

Lemma delta_loop_spec x (l : SrcMap) :
  delta_loop (length (x :: l) - 1) (x :: l) = x :: deltas_from x l.
Proof.
  revert x. induction l as [|y l IH] using rev_ind; intros x; [done|].
  replace (length (x :: l ++ [y]) - 1)%nat with (S (length l))
    by (simpl; rewrite length_app; simpl; lia).
  cbn [delta_loop].
  change (x :: l ++ [y]) with ((x :: l) ++ [y]).
  rewrite (lookup_total_app_r (x :: l) [y] (S (length l))) by (simpl; lia).
  rewrite (lookup_total_app_l (x :: l) [y] (length l)) by (simpl; lia).
  replace (S (length l)) with (length (x :: l) + 0)%nat at 1 by (simpl; lia).
  rewrite insert_app_r.
  replace (S (length l) - length (x :: l))%nat with 0%nat by (simpl; lia).
  cbn [lookup_total list_lookup_total insert list_insert].
  rewrite delta_loop_app by (simpl; lia).
  specialize (IH x). simpl in IH. rewrite Nat.sub_0_r in IH. rewrite IH.
  rewrite deltas_from_snoc. simpl. do 3 f_equal.
  by rewrite lookup_total_last.
Qed.

(** *** Prefix sums undo the delta stream *)

Lemma prefix_sum_deltas_from prev (l : SrcMap) :
  Forall wf_elem l -> prefix_sum prev (deltas_from prev l) = l.
Proof.
  intros Hl. revert prev. induction Hl as [|x l Hx _ IH]; intros prev; simpl.
  - done.
  - rewrite add_sub_elem by done. by rewrite IH.
Qed.

Lemma deltas_from_length prev (l : SrcMap) :
  length (deltas_from prev l) = length l.
Proof. revert prev. induction l; intros; simpl; auto. Qed.

(** *** Comparisons by an integer key are strict weak orders *)

Lemma key_lt_swo {A : Type} (key : A -> Z) :
  StrictWeakOrder (fun a b => key a <? key b).
Proof.
  split.
  - intros x. apply Z.ltb_irrefl.
  - intros x y z Hxy Hyz. apply Z.ltb_lt in Hxy, Hyz. apply Z.ltb_lt. lia.
  - intros x y z Hxz. apply Z.ltb_lt in Hxz. rewrite !Z.ltb_lt. lia.
Qed.

Lemma from_lt_swo : StrictWeakOrder from_lt.
Proof. apply (key_lt_swo from_). Qed.

Lemma elem_lt_swo : StrictWeakOrder elem_lt.
Proof. apply (key_lt_swo to_int64). Qed.

Lemma not_after_key {A : Type} (key : A -> Z) x y :
  not_after (fun a b => key a <? key b) x y <-> key x <= key y.
Proof. unfold not_after. rewrite Z.ltb_ge. done. Qed.

Lemma sorted_not_after_key {A : Type} (key : A -> Z) (l : list A) :
  StronglySorted (not_after (fun a b => key a <? key b)) l
  <-> StronglySorted (fun x y => key x <= key y) l.
Proof.
  induction l as [|x l IH].
  - split; constructor.
  - split; intros H; inversion_clear H as [|? ? Hl Hx]; constructor;
      try (by apply IH);
      (eapply Forall_impl; [exact Hx|]); intros y; by rewrite not_after_key.
Qed.

(** *** [SortByFrom] *)

Section SortFacts.
Context (sorter : StdSort).

Lemma SortByFrom_perm (m : SrcMap) : SortByFrom sorter m ≡ₚ m.
Proof. apply std_sort_perm. Qed.

Lemma SortByFrom_sorted (m : SrcMap) :
  StronglySorted (fun x y => from_ x <= from_ y) (SortByFrom sorter m).
Proof.
  apply (sorted_not_after_key from_), std_sort_sorted, from_lt_swo.
Qed.

Lemma SortByFrom_length (m : SrcMap) : length (SortByFrom sorter m) = length m.
Proof. apply Permutation_length, SortByFrom_perm. Qed.

Lemma SortByFrom_nonempty (m : SrcMap) : m <> [] -> SortByFrom sorter m <> [].
Proof.
  intros Hm Hs. apply Hm. apply Permutation_nil_r.
  rewrite <- Hs. symmetry. apply SortByFrom_perm.
Qed.

Lemma SortByFrom_wf (m : SrcMap) :
  Forall wf_elem m -> Forall wf_elem (SortByFrom sorter m).
Proof. intros H. by rewrite SortByFrom_perm. Qed.

End SortFacts.

(** *** The scan for the highest retained index *)

Lemma scan_highest_le v highest_pc i : (scan_highest v highest_pc i <= i)%nat.
Proof.
  induction i as [|i IH]; cbn [scan_highest]; [done|].
  destruct (from_ (v !!! S i) <? highest_pc); lia.
Qed.

(** Every index the scan passed holds an offset at or above [highest_pc]. *)
Lemma scan_highest_above v highest_pc i j :
  (scan_highest v highest_pc i < j <= i)%nat -> highest_pc <= from_ (v !!! j).
Proof.
  induction i as [|i IH]; cbn [scan_highest]; [lia|].
  destruct (from_ (v !!! S i) <? highest_pc) eqn:E; [lia|].
  intros Hj. destruct (decide (j = S i)) as [->|Hne].
  - by apply Z.ltb_ge.
  - apply IH. lia.
Qed.

(** It stops at an offset below [highest_pc], or at index 0. *)
Lemma scan_highest_stop v highest_pc i :
  scan_highest v highest_pc i = 0%nat
  \/ from_ (v !!! scan_highest v highest_pc i) < highest_pc.
Proof.
  induction i as [|i IH]; cbn [scan_highest]; [by left|].
  destruct (from_ (v !!! S i) <? highest_pc) eqn:E; [|done].
  right. by apply Z.ltb_lt.
Qed.

Lemma drop_highest_take highest_pc (v : SrcMap) :
  v <> [] ->
  drop_highest highest_pc v
  = take (S (scan_highest v highest_pc (length v - 1))) v.
Proof.
  intros Hv. unfold drop_highest, size.
  pose proof (scan_highest_le v highest_pc (length v - 1)).
  destruct v as [|x v]; [done|]. simpl length in *.
  rewrite Nat.add_1_r. apply resize_le. cbn [length]. lia.
Qed.

Lemma drop_highest_cons highest_pc x (v : SrcMap) :
  exists r, drop_highest highest_pc (x :: v) = x :: r.
Proof.
  rewrite drop_highest_take by done. simpl. eauto.
Qed.

Lemma drop_highest_wf highest_pc (v : SrcMap) :
  v <> [] -> Forall wf_elem v -> Forall wf_elem (drop_highest highest_pc v).
Proof.
  intros Hv H. rewrite drop_highest_take by done. by apply Forall_take.
Qed.

(** *** [DeltaFormat] as a composition of its stages *)

Lemma DeltaFormat_stages sorter dbg start highest_pc (m : SrcMap) :
  m <> [] ->
  DeltaFormat sorter dbg start highest_pc m
  = let r := drop_highest highest_pc (SortByFrom sorter m) in
    if dbg && negb (from_ (r !!! 0%nat) >=? from_ start) then None
    else Some (deltas_from start r).
Proof.
  intros Hm. unfold DeltaFormat.
  destruct m as [|e m]; [done|]. cbn [empty].
  pose proof (SortByFrom_nonempty sorter (e :: m) Hm) as Hs.
  destruct (SortByFrom sorter (e :: m)) as [|x s]; [done|].
  destruct (drop_highest_cons highest_pc x s) as [r ->].
  cbv zeta. unfold size. rewrite delta_loop_spec. done.
Qed.

(** *** Sorted ranges read by index, and filters on them *)

Lemma StronglySorted_lookup_lt {A : Type} (R : relation A) (l : list A) i j x y :
  StronglySorted R l -> (i < j)%nat ->
  l !! i = Some x -> l !! j = Some y -> R x y.
Proof.
  intros Hl Hij Hi Hj.
  rewrite <- (take_drop j l) in Hl.
  apply (StronglySorted_app_1_elem_of R _ _ x y Hl).
  - apply elem_of_take. eauto.
  - apply list_elem_of_lookup. exists 0%nat.
    by rewrite lookup_drop, Nat.add_0_r.
Qed.

Lemma filter_all {A : Type} (P : A -> Prop) `{forall x, Decision (P x)}
    (l : list A) :
  Forall P l -> filter P l = l.
Proof.
  induction 1 as [|x l Hx _ IH]; [done|].
  by rewrite filter_cons_True, IH.
Qed.

Lemma filter_none {A : Type} (P : A -> Prop) `{forall x, Decision (P x)}
    (l : list A) :
  Forall (fun x => ~ P x) l -> filter P l = [].
Proof.
  induction 1 as [|x l Hx _ IH]; [done|].
  by rewrite filter_cons_False, IH.
Qed.

(** What the scan passed is at or above [highest_pc]. *)
Lemma drop_scan_highest_above highest_pc (v : SrcMap) :
  Forall (fun e => ~ below highest_pc e)
    (drop (S (scan_highest v highest_pc (length v - 1))) v).
Proof.
  apply Forall_lookup. intros j e He. rewrite lookup_drop in He.
  pose proof (lookup_lt_Some _ _ _ He) as Hlt.
  apply list_lookup_total_correct in He. subst e.
  unfold below. apply Z.nlt_ge, (scan_highest_above v highest_pc (length v - 1)).
  lia.
Qed.

(** On a range sorted by offset, the scan keeps exactly the entries below
    [highest_pc] when there is one, and the first entry alone otherwise. *)
Lemma drop_highest_sorted highest_pc (v : SrcMap) :
  v <> [] ->
  StronglySorted (fun x y => from_ x <= from_ y) v ->
  drop_highest highest_pc v
  = match filter (below highest_pc) v with
    | [] => take 1 v
    | kept => kept
    end.
Proof.
  intros Hv Hs. rewrite drop_highest_take by done.
  set (k := scan_highest v highest_pc (length v - 1)).
  assert (k < length v)%nat as Hk.
  { pose proof (scan_highest_le v highest_pc (length v - 1)).
    destruct v; [done|]. simpl in *. lia. }
  pose proof (drop_scan_highest_above highest_pc v) as Habove. fold k in Habove.
  destruct (lookup_lt_is_Some_2 v k Hk) as [ek Hek].
  pose proof (list_lookup_total_correct _ _ _ Hek) as Hek'.
  destruct (decide (below highest_pc ek)) as [Hb|Hb].
  - assert (Forall (below highest_pc) (take (S k) v)) as Hkept.
    { apply Forall_lookup. intros j e He.
      apply lookup_take_Some in He as [He Hj].
      destruct (decide (j = k)) as [->|Hne]; [congruence|].
      assert (from_ e <= from_ ek)
        by (apply (StronglySorted_lookup_lt _ v j k e ek Hs); [lia|done..]).
      unfold below in *. lia. }
    rewrite <- (take_drop (S k) v) at 2.
    rewrite filter_app, (filter_all _ _ Hkept), (filter_none _ _ Habove), app_nil_r.
    destruct v; [done|]. done.
  - assert (k = 0%nat) as Hk0.
    { destruct (scan_highest_stop v highest_pc (length v - 1)) as [?|Hlt];
        [done|]. fold k in Hlt. rewrite Hek' in Hlt. done. }
    rewrite Hk0 in *.
    assert (filter (below highest_pc) v = []) as ->; [|done].
    rewrite <- (take_drop 1 v), filter_app, (filter_none _ _ Habove), app_nil_r.
    destruct v as [|x v]; [done|]. simpl in Hek. simplify_eq.
    cbn [take]. apply (filter_none (below highest_pc) [x]), Forall_singleton. done.
Qed.

(** On a sequence sorted by offset that starts at or after [prev], no
    subtraction of offsets wraps around: the deltas are the gaps. *)
Lemma deltas_from_offsets_exact prev (l : SrcMap) :
  StronglySorted (fun x y => from_ x <= from_ y) l ->
  Forall wf_elem l ->
  0 <= from_ prev ->
  (forall e, head l = Some e -> from_ prev <= from_ e) ->
  from_ <$> deltas_from prev l = offset_gaps (from_ prev) l
  /\ Forall (fun gap => 0 <= gap) (offset_gaps (from_ prev) l).
Proof.
  intros Hs. revert prev. induction Hs as [|x l Hl IH Hx]; intros prev Hwf H0 Hp.
  { split; [done|constructor]. }
  inversion_clear Hwf as [|? ? [Hfx _] Hwl].
  specialize (Hp x eq_refl). unfold is_u32 in Hfx.
  destruct (IH x Hwl) as [IH1 IH2]; [lia| |].
  { intros e He. destruct l as [|y l]; simplify_eq/=.
    by inversion_clear Hx. }
  cbn [deltas_from fmap list_fmap offset_gaps]. split.
  - f_equal; [|exact IH1]. cbn. apply wrap_u32_id. unfold is_u32. lia.
  - constructor; [lia|done].
Qed.

(** *** [DeltaFormat]: the claims *)

(** C1.  Take a non-empty source map, sort it by native offset (a
    rearrangement of the map in ascending order of offset) and trim it at
    [highest_pc] (the entries below [highest_pc], a prefix of the sorted
    sequence after which every offset is at or above [highest_pc]; the
    first entry alone when no entry is below).  When the first entry of
    that sequence is at or after [start]'s native offset, [DeltaFormat]
    returns a delta stream of the same length, and prefix-summing that
    stream from [start] gives back exactly that sequence. *)
Theorem DeltaFormat_prefix_sum_roundtrip
    sorter dbg start highest_pc (m : SrcMap) :
  let sorted := SortByFrom sorter m in
  let trimmed :=
    match filter (below highest_pc) sorted with
    | [] => take 1 sorted
    | under => under
    end in
  m <> [] ->
  Forall wf_elem m ->
  (forall e, head trimmed = Some e -> from_ start <= from_ e) ->
  sorted ≡ₚ m
  /\ StronglySorted (fun x y => from_ x <= from_ y) sorted
  /\ (exists k, trimmed = take (S k) sorted
                /\ Forall (fun e => highest_pc <= from_ e) (drop (S k) sorted))
  /\ Forall (below highest_pc) (tail trimmed)
  /\ ((exists e, e ∈ m /\ below highest_pc e) ->
      trimmed = filter (below highest_pc) sorted
      /\ Forall (below highest_pc) trimmed)
  /\ exists d,
       DeltaFormat sorter dbg start highest_pc m = Some d
       /\ length d = length trimmed
       /\ prefix_sum start d = trimmed.
Proof.
  intros sorted trimmed Hm Hwf Hstart.
  pose proof (SortByFrom_nonempty sorter m Hm) as Hne.
  pose proof (SortByFrom_sorted sorter m) as Hs.
  pose proof (SortByFrom_perm sorter m) as Hp.
  pose proof (drop_highest_sorted highest_pc _ Hne Hs) as Hkept.
  fold sorted in Hne, Hs, Hp, Hkept. fold trimmed in Hkept.
  assert (Forall (below highest_pc) (filter (below highest_pc) sorted))
    as Hunder.
  { apply Forall_forall. intros e He.
    by apply list_elem_of_filter in He as [? _]. }
  split; [done|]. split; [done|]. split; [|split; [|split]].
  - eexists. rewrite <- Hkept. split; [by apply drop_highest_take|].
    eapply Forall_impl; [apply drop_scan_highest_above|].
    intros e He. unfold below in He. simpl in He. lia.
  - unfold trimmed.
    destruct (filter (below highest_pc) sorted) as [|u under] eqn:E.
    + destruct sorted; constructor.
    + by inversion_clear Hunder.
  - intros (e & He & Hbelow).
    assert (e ∈ filter (below highest_pc) sorted) as Hin.
    { apply list_elem_of_filter. split; [done|]. by rewrite Hp. }
    unfold trimmed.
    destruct (filter (below highest_pc) sorted) as [|u under] eqn:E.
    + by apply elem_of_nil in Hin.
    + done.
  - pose proof (DeltaFormat_stages sorter dbg start highest_pc m Hm) as HD.
    cbv zeta in HD. fold sorted in HD. rewrite Hkept in HD.
    assert (Forall wf_elem trimmed) as Hwt.
    { rewrite <- Hkept. apply drop_highest_wf; [done|].
      by apply SortByFrom_wf. }
    destruct trimmed as [|x r] eqn:Et.
    { exfalso. symmetry in Hkept.
      destruct sorted as [|y s]; [done|].
      destruct (drop_highest_cons highest_pc y s) as [r Hr]. congruence. }
    cbn [lookup_total list_lookup_total] in HD.
    assert ((from_ x >=? from_ start) = true) as Hge.
    { apply Z.geb_le. by apply Hstart. }
    rewrite Hge, andb_false_r in HD.
    eexists. split; [exact HD|]. split; [apply deltas_from_length|].
    by apply prefix_sum_deltas_from.
Qed.

Lemma DeltaFormat_prefix_sum_roundtrip_witness :
  let sorted := SortByFrom MergeSort.impl scenario_E in
  let trimmed :=
    match filter (below 25) sorted with
    | [] => take 1 sorted
    | under => under
    end in
  sorted ≡ₚ scenario_E
  /\ StronglySorted (fun x y => from_ x <= from_ y) sorted
  /\ (exists k, trimmed = take (S k) sorted
                /\ Forall (fun e => 25 <= from_ e) (drop (S k) sorted))
  /\ Forall (below 25) (tail trimmed)
  /\ ((exists e, e ∈ scenario_E /\ below 25 e) ->
      trimmed = filter (below 25) sorted
      /\ Forall (below 25) trimmed)
  /\ exists d,
       DeltaFormat MergeSort.impl true (mkElem 10 2) 25 scenario_E = Some d
       /\ length d = length trimmed
       /\ prefix_sum (mkElem 10 2) d = trimmed.
Proof.
  apply (DeltaFormat_prefix_sum_roundtrip
           MergeSort.impl true (mkElem 10 2) 25 scenario_E).
  - discriminate.
  - repeat constructor; vm_compute; congruence.
  - intros e He. vm_compute in He. inversion He. vm_compute. congruence.
Defined.

(** Scenario E there and back: [(30,5)] is trimmed away, and the two
    entries left come back from the deltas. *)
Example scenario_E_roundtrip :
  DeltaFormat MergeSort.impl true (mkElem 10 2) 25 scenario_E
  = Some [mkElem 0 0; mkElem 10 0]
  /\ prefix_sum (mkElem 10 2) [mkElem 0 0; mkElem 10 0]
     = [mkElem 10 2; mkElem 20 2].
Proof. split; vm_compute; reflexivity. Qed.

(** C2, as amended.  For a non-empty source map, [DeltaFormat] sorts by
    native offset and then drops trailing entries at or above [highest_pc],
    but never the first one: when some entry is below [highest_pc] it keeps
    exactly the entries below it, a prefix of the sorted sequence that ends
    with the last such entry; when none is, it keeps the first sorted entry
    alone.  The delta stream is computed from what was kept. *)
Theorem DeltaFormat_drops_trailing_highest
    sorter dbg start highest_pc (m : SrcMap) :
  m <> [] ->
  let sorted := SortByFrom sorter m in
  let kept := drop_highest highest_pc sorted in
  sorted ≡ₚ m
  /\ StronglySorted (fun x y => from_ x <= from_ y) sorted
  /\ (exists k, kept = take (S k) sorted
               /\ Forall (fun e => highest_pc <= from_ e)
                         (drop (S k) sorted))
  /\ kept = match filter (below highest_pc) sorted with
            | [] => take 1 sorted
            | under => under
            end
  /\ Forall (below highest_pc) (tail kept)
  /\ DeltaFormat sorter dbg start highest_pc m
     = if dbg && negb (from_ (kept !!! 0%nat) >=? from_ start) then None
       else Some (deltas_from start kept).
Proof.
  intros Hm sorted kept.
  pose proof (SortByFrom_nonempty sorter m Hm) as Hne.
  pose proof (SortByFrom_sorted sorter m) as Hs.
  pose proof (drop_highest_sorted highest_pc _ Hne Hs) as Hkept.
  fold sorted in Hne, Hs, Hkept. fold kept in Hkept.
  split; [apply SortByFrom_perm|]. split; [done|].
  split; [|split; [done|split]].
  - eexists. split; [by apply drop_highest_take|].
    eapply Forall_impl; [apply drop_scan_highest_above|].
    intros e He. unfold below in He. simpl in He. lia.
  - rewrite Hkept.
    destruct (filter (below highest_pc) sorted) as [|u under] eqn:E.
    + destruct sorted; constructor.
    + apply Forall_forall. intros e He.
      assert (e ∈ filter (below highest_pc) sorted) as Hin
        by (rewrite E; by right).
      by apply list_elem_of_filter in Hin as [? _].
  - by apply DeltaFormat_stages.
Qed.

Lemma DeltaFormat_drops_trailing_highest_witness :
  let sorted := SortByFrom MergeSort.impl scenario_E in
  let kept := drop_highest 25 sorted in
  sorted ≡ₚ scenario_E
  /\ StronglySorted (fun x y => from_ x <= from_ y) sorted
  /\ (exists k, kept = take (S k) sorted
               /\ Forall (fun e => 25 <= from_ e) (drop (S k) sorted))
  /\ kept = match filter (below 25) sorted with
            | [] => take 1 sorted
            | under => under
            end
  /\ Forall (below 25) (tail kept)
  /\ DeltaFormat MergeSort.impl true (mkElem 10 2) 25 scenario_E
     = if true && negb (from_ (kept !!! 0%nat) >=? from_ (mkElem 10 2))
       then None else Some (deltas_from (mkElem 10 2) kept).
Proof.
  apply (DeltaFormat_drops_trailing_highest
           MergeSort.impl true (mkElem 10 2) 25 scenario_E).
  discriminate.
Defined.

(** C2 as stated fails: in the one-entry map [(30,5)] the entry is at or
    above [highest_pc = 25], and it is still there after [DeltaFormat]. *)
Lemma DeltaFormat_keeps_entry_above_highest_pc :
  let m := [mkElem 30 5] in
  let kept := drop_highest 25 (SortByFrom MergeSort.impl m) in
  m <> []
  /\ kept = [mkElem 30 5]
  /\ DeltaFormat MergeSort.impl false (mkElem 10 2) 25 m
     = Some (deltas_from (mkElem 10 2) kept)
  /\ prefix_sum (mkElem 10 2) (deltas_from (mkElem 10 2) kept) = [mkElem 30 5]
  /\ ~ Forall (fun e => from_ e < 25) kept.
Proof.
  cbv zeta. split; [discriminate|]. split; [vm_compute; reflexivity|].
  split; [vm_compute; reflexivity|]. split; [vm_compute; reflexivity|].
  intros H. vm_compute in H. inversion H as [|? ? Hlt _]. discriminate Hlt.
Qed.

(** C9.  For a non-empty source map [DeltaFormat] never leaves an empty
    sequence: the entry with the smallest native offset is kept whatever
    [highest_pc] is, so the result has at least one entry whenever the
    method returns, and in a build without [DCHECK] it always returns. *)
Theorem DeltaFormat_keeps_smallest
    sorter dbg start highest_pc (m : SrcMap) :
  m <> [] ->
  exists first rest,
    drop_highest highest_pc (SortByFrom sorter m) = first :: rest
    /\ first ∈ m
    /\ (forall e, e ∈ m -> from_ first <= from_ e)
    /\ DeltaFormat sorter dbg start highest_pc m
       = (if dbg && negb (from_ first >=? from_ start) then None
          else Some (sub_elem first start :: deltas_from first rest))
    /\ DeltaFormat sorter dbg start highest_pc m <> Some [].
Proof.
  intros Hm.
  pose proof (SortByFrom_nonempty sorter m Hm) as Hne.
  pose proof (SortByFrom_sorted sorter m) as Hs.
  pose proof (SortByFrom_perm sorter m) as Hp.
  pose proof (DeltaFormat_stages sorter dbg start highest_pc m Hm) as HD.
  cbv zeta in HD.
  destruct (SortByFrom sorter m) as [|x s]; [done|].
  destruct (drop_highest_cons highest_pc x s) as [r Hx]. rewrite Hx in *.
  exists x, r. split; [done|].
  split; [rewrite <- Hp; by left|].
  split.
  { intros e He. rewrite <- Hp in He. inversion_clear Hs as [|? ? _ Hall].
    apply elem_of_cons in He as [->|He]; [lia|].
    rewrite Forall_forall in Hall. by apply Hall. }
  cbn [lookup_total list_lookup_total deltas_from] in HD.
  split; [done|].
  rewrite HD. by destruct (dbg && _).
Qed.

Lemma DeltaFormat_keeps_smallest_witness :
  exists first rest,
    drop_highest 5 (SortByFrom MergeSort.impl scenario_E) = first :: rest
    /\ first ∈ scenario_E
    /\ (forall e, e ∈ scenario_E -> from_ first <= from_ e)
    /\ DeltaFormat MergeSort.impl true (mkElem 10 2) 5 scenario_E
       = (if true && negb (from_ first >=? from_ (mkElem 10 2)) then None
          else Some (sub_elem first (mkElem 10 2) :: deltas_from first rest))
    /\ DeltaFormat MergeSort.impl true (mkElem 10 2) 5 scenario_E <> Some [].
Proof.
  apply (DeltaFormat_keeps_smallest MergeSort.impl true (mkElem 10 2) 5 scenario_E).
  discriminate.
Defined.

(** With every offset at or above [highest_pc = 5], scenario E keeps its
    smallest entry alone. *)
Example scenario_E_all_above :
  DeltaFormat MergeSort.impl true (mkElem 10 2) 5 scenario_E
  = Some [mkElem 0 0].
Proof. vm_compute. reflexivity. Qed.

(** C8.  Scenario E: on [(30,5),(10,2),(20,2)] with [start = (10,2)] and
    [highest_pc = 25], whichever conforming [std::sort] is used, the sorted
    sequence is [(10,2),(20,2),(30,5)], the entry [(30,5)] is dropped, and
    the deltas left are [(0,0),(10,0)]. *)
Theorem scenario_E_DeltaFormat sorter dbg :
  SortByFrom sorter scenario_E = [mkElem 10 2; mkElem 20 2; mkElem 30 5]
  /\ drop_highest 25 (SortByFrom sorter scenario_E) = [mkElem 10 2; mkElem 20 2]
  /\ DeltaFormat sorter dbg (mkElem 10 2) 25 scenario_E
     = Some [mkElem 0 0; mkElem 10 0].
Proof.
  assert (SortByFrom sorter scenario_E = [mkElem 10 2; mkElem 20 2; mkElem 30 5])
    as Hsorted.
  { pose proof (SortByFrom_perm sorter scenario_E) as Hp.
    apply (StronglySorted_unique_strong (fun x y => from_ x <= from_ y)).
    - intros x1 x2 H1 H2 Hle Hge. rewrite Hp in H1.
      unfold scenario_E in H1.
      repeat (apply elem_of_cons in H1 as [->|H1]);
        [| | |by apply elem_of_nil in H1];
        repeat (apply elem_of_cons in H2 as [->|H2]);
        try (by apply elem_of_nil in H2); simpl in *; (done || lia).
    - apply SortByFrom_sorted.
    - repeat constructor; simpl; lia.
    - rewrite Hp. unfold scenario_E.
      apply (Permutation_cons_append [mkElem 10 2; mkElem 20 2]). }
  split; [done|].
  rewrite DeltaFormat_stages by done. rewrite Hsorted.
  split; [vm_compute; reflexivity|].
  destruct dbg; vm_compute; reflexivity.
Qed.

(** *** The 64-bit key of an element *)

Lemma lor_shifted_low hi lo :
  0 <= lo < 2 ^ 32 -> Z.lor (hi * 2 ^ 32) lo = hi * 2 ^ 32 + lo.
Proof.
  intros Hlo.
  rewrite <- Z.lxor_lor, <- Z.add_nocarry_lxor; [done| |].
  all: apply Z.bits_inj'; intros n Hn; rewrite Z.land_spec, Z.bits_0.
  all: destruct (decide (n < 32)) as [Hlt|Hge].
  all: try (rewrite <- Z.shiftl_mul_pow2, Z.shiftl_spec_low by lia; done).
  all: assert (Z.testbit lo n = false) as ->; [|apply andb_false_r].
  all: destruct (decide (lo = 0)) as [->|Hz]; [apply Z.bits_0|].
  all: apply Z.bits_above_log2; [lia|].
  all: assert (Z.log2 lo < 32) by (apply Z.log2_lt_pow2; lia); lia.
Qed.

Lemma to_int64_spec e : wf_elem e -> to_int64 e = to_ e * 2 ^ 32 + from_ e.
Proof.
  intros [Hf Ht]. unfold to_int64, is_u32, is_s32 in *.
  rewrite Z.shiftl_mul_pow2 by lia.
  rewrite wrap_s64_id by (unfold is_s64; lia).
  by apply lor_shifted_low.
Qed.

Lemma to_int64_range e : wf_elem e -> is_s64 (to_int64 e).
Proof.
  intros He. rewrite to_int64_spec by done.
  destruct He as [Hf Ht]. unfold is_u32, is_s32, is_s64 in *. lia.
Qed.

Lemma to_int64_inj a b : wf_elem a -> wf_elem b -> to_int64 a = to_int64 b -> a = b.
Proof.
  intros Ha Hb. rewrite !to_int64_spec by done.
  destruct Ha as [Hfa Hta], Hb as [Hfb Htb], a as [fa ta], b as [fb tb].
  unfold is_u32, is_s32 in *. simpl in *. intros Heq.
  assert (ta = tb) by nia. subst. f_equal. lia.
Qed.

Lemma to_int64_lt a b :
  wf_elem a -> wf_elem b ->
  to_int64 a < to_int64 b <-> line_then_offset a b.
Proof.
  intros Ha Hb. rewrite !to_int64_spec by done. unfold line_then_offset.
  destruct Ha as [Hfa Hta], Hb as [Hfb Htb].
  unfold is_u32, is_s32 in *. split; [|nia].
  intros Hlt. destruct (decide (to_ a < to_ b)); [by left|right]. nia.
Qed.

(** [operator==] holds of equal pairs only. *)
Lemma elem_eq_true a b : wf_elem a -> wf_elem b -> elem_eq a b = true <-> a = b.
Proof.
  intros Ha Hb. unfold elem_eq. rewrite Z.eqb_eq. split.
  - by apply to_int64_inj.
  - by intros ->.
Qed.

(** *** [std::unique] on a range sorted by an integer key *)

Section UniqueByKey.
Context {A : Type} (key : A -> Z).

Let eqb (a b : A) : bool := key a =? key b.
Let le (a b : A) : Prop := key a <= key b.
Let lt (a b : A) : Prop := key a < key b.

Lemma unique_after_subseteq prev (l : list A) : unique_after eqb prev l ⊆ l.
Proof.
  revert prev. induction l as [|x l IH]; intros prev; simpl; [done|].
  destruct (eqb prev x); intros y Hy.
  - right. by apply (IH prev).
  - apply elem_of_cons in Hy as [->|Hy]; [by left|right]. by apply (IH x).
Qed.

Lemma std_unique_subseteq (l : list A) : std_unique eqb l ⊆ l.
Proof.
  destruct l as [|x l]; simpl; [done|]. intros y Hy.
  apply elem_of_cons in Hy as [->|Hy]; [by left|right].
  by apply (unique_after_subseteq x).
Qed.

(** Every element dropped has the key of one that is kept. *)
Lemma unique_after_key_kept prev (l : list A) x :
  x ∈ prev :: l ->
  exists y, y ∈ prev :: unique_after eqb prev l /\ key y = key x.
Proof.
  revert prev. induction l as [|z l IH]; intros prev Hx; simpl.
  { exists x. done. }
  apply elem_of_cons in Hx as [->|Hx].
  { exists prev. split; [by left|done]. }
  destruct (eqb prev z) eqn:E.
  - apply Z.eqb_eq in E. apply elem_of_cons in Hx as [->|Hx].
    + exists prev. split; [by left|done].
    + apply IH. by right.
  - destruct (IH z Hx) as (y & Hy & Hk).
    exists y. split; [by right|done].
Qed.

Lemma unique_after_sorted prev (l : list A) :
  StronglySorted le (prev :: l) ->
  StronglySorted lt (prev :: unique_after eqb prev l).
Proof.
  revert prev. induction l as [|x l IH]; intros prev Hs; simpl.
  { repeat constructor. }
  inversion Hs as [|? ? Hl Hprev]; subst.
  inversion Hprev as [|? ? Hpx Hprev']; subst.
  inversion Hl as [|? ? Hl' Hx]; subst.
  destruct (eqb prev x) eqn:E.
  - apply IH. by constructor.
  - apply Z.eqb_neq in E.
    specialize (IH x Hl). constructor; [done|].
    assert (lt prev x) as Hlt by (unfold le, lt in *; lia).
    constructor; [done|].
    inversion IH as [|? ? _ Hall]; subst.
    eapply Forall_impl; [exact Hall|]. unfold lt in *. simpl. intros; lia.
Qed.

Lemma std_unique_sorted (l : list A) :
  StronglySorted le l -> StronglySorted lt (std_unique eqb l).
Proof.
  destruct l as [|x l]; simpl; [constructor|]. apply unique_after_sorted.
Qed.

(** A range with strictly increasing keys is left as it is. *)
Lemma unique_after_id prev (l : list A) :
  StronglySorted lt (prev :: l) -> unique_after eqb prev l = l.
Proof.
  revert prev. induction l as [|x l IH]; intros prev Hs; simpl; [done|].
  inversion Hs as [|? ? Hl Hprev]; subst.
  inversion Hprev as [|? ? Hpx _]; subst.
  assert (eqb prev x = false) as -> by (apply Z.eqb_neq; unfold lt in *; lia).
  f_equal. by apply IH.
Qed.

Lemma std_unique_id (l : list A) :
  StronglySorted lt l -> std_unique eqb l = l.
Proof.
  destruct l as [|x l]; simpl; [done|]. intros Hs. f_equal.
  by apply unique_after_id.
Qed.

Lemma sorted_lt_le (l : list A) : StronglySorted lt l -> StronglySorted le l.
Proof.
  induction 1 as [|x l _ IH Hx]; constructor; [done|].
  eapply Forall_impl; [exact Hx|]. unfold lt, le. simpl. intros; lia.
Qed.

Lemma sorted_lt_key_inj (l : list A) x y :
  StronglySorted lt l -> x ∈ l -> y ∈ l -> key x = key y -> x = y.
Proof.
  induction 1 as [|z l _ IH Hz]; intros Hx Hy Hk.
  { by apply elem_of_nil in Hx. }
  rewrite Forall_forall in Hz. unfold lt in Hz.
  apply elem_of_cons in Hx as [->|Hx]; apply elem_of_cons in Hy as [->|Hy].
  - done.
  - specialize (Hz _ Hy). lia.
  - specialize (Hz _ Hx). lia.
  - by apply IH.
Qed.

Lemma sorted_lt_NoDup (l : list A) : StronglySorted lt l -> NoDup l.
Proof.
  induction 1 as [|x l _ IH Hx]; constructor; [|done].
  intros Hin. rewrite Forall_forall in Hx. specialize (Hx _ Hin).
  unfold lt in Hx. lia.
Qed.

End UniqueByKey.

(** *** [Arrange] *)

Section ArrangeFacts.
Context (sorter : StdSort).

Lemma Arrange_nonempty (m : SrcMap) :
  m <> [] -> Arrange sorter m = std_unique elem_eq (std_sort sorter elem_lt m).
Proof. by destruct m. Qed.

Lemma sort_elem_lt_sorted (m : SrcMap) :
  StronglySorted (fun a b => to_int64 a <= to_int64 b) (std_sort sorter elem_lt m).
Proof.
  apply (sorted_not_after_key to_int64), std_sort_sorted, elem_lt_swo.
Qed.

(** The result has strictly increasing keys. *)
Lemma Arrange_sorted (m : SrcMap) :
  StronglySorted (fun a b => to_int64 a < to_int64 b) (Arrange sorter m).
Proof.
  destruct m as [|e m]; [constructor|].
  rewrite Arrange_nonempty by done.
  apply (std_unique_sorted to_int64), sort_elem_lt_sorted.
Qed.

Lemma Arrange_subseteq (m : SrcMap) : Arrange sorter m ⊆ m.
Proof.
  destruct m as [|e m]; [done|]. rewrite Arrange_nonempty by done.
  intros x Hx. apply (std_unique_subseteq to_int64) in Hx.
  by rewrite (std_sort_perm sorter) in Hx.
Qed.

(** A map with strictly increasing keys is already arranged. *)
Lemma Arrange_id (m : SrcMap) :
  StronglySorted (fun a b => to_int64 a < to_int64 b) m -> Arrange sorter m = m.
Proof.
  intros Hm. destruct m as [|e m]; [done|].
  rewrite Arrange_nonempty by done.
  assert (std_sort sorter elem_lt (e :: m) = e :: m) as ->.
  { apply (StronglySorted_unique_strong (fun a b => to_int64 a <= to_int64 b)).
    - intros x1 x2 H1 H2 Hle Hge. rewrite (std_sort_perm sorter) in H1.
      apply (sorted_lt_key_inj to_int64 (e :: m)); [done..|lia].
    - apply sort_elem_lt_sorted.
    - by apply (sorted_lt_le to_int64).
    - apply std_sort_perm. }
  by apply (std_unique_id to_int64).
Qed.

Lemma Arrange_elem_of (m : SrcMap) e :
  Forall wf_elem m -> e ∈ Arrange sorter m <-> e ∈ m.
Proof.
  intros Hwf. split; [apply Arrange_subseteq|]. intros He.
  destruct m as [|e0 m]; [done|]. rewrite Arrange_nonempty by done.
  pose proof (std_sort_perm sorter _ elem_lt (e0 :: m)) as Hp.
  rewrite <- Hp in He.
  destruct (std_sort sorter elem_lt (e0 :: m)) as [|x s] eqn:E.
  { by apply elem_of_nil in He. }
  destruct (unique_after_key_kept to_int64 x s e He) as (y & Hy & Hk).
  assert (y ∈ e0 :: m) as Hym.
  { rewrite <- Hp. apply (std_unique_subseteq to_int64 (x :: s)). exact Hy. }
  rewrite Forall_forall in Hwf.
  assert (y = e) as <-; [|exact Hy].
  apply to_int64_inj; [by apply Hwf| |done].
  apply Hwf. by rewrite <- Hp.
Qed.

End ArrangeFacts.

(** C3.  [Arrange] is idempotent; its result is sorted by the 64-bit key
    [(to << 32) | from], that is by source line first and native offset
    second, and holds no pair twice.  It holds the pairs of the input. *)
Theorem Arrange_idempotent_sorted_nodup sorter (m : SrcMap) :
  Forall wf_elem m ->
  Arrange sorter (Arrange sorter m) = Arrange sorter m
  /\ StronglySorted (fun a b => to_int64 a < to_int64 b) (Arrange sorter m)
  /\ StronglySorted line_then_offset (Arrange sorter m)
  /\ NoDup (Arrange sorter m)
  /\ (forall e, e ∈ Arrange sorter m <-> e ∈ m).
Proof.
  intros Hwf.
  pose proof (Arrange_sorted sorter m) as Hs.
  split; [by apply Arrange_id|]. split; [done|].
  split; [|split].
  - assert (Forall wf_elem (Arrange sorter m)) as Hwf'.
    { apply Forall_forall. intros e He. rewrite Forall_forall in Hwf.
      apply Hwf. by apply (Arrange_subseteq sorter m). }
    induction Hs as [|x l Hl IH Hx]; constructor.
    + apply IH. by inversion Hwf'.
    + inversion_clear Hwf' as [|? ? Hwx Hwl].
      apply Forall_forall. intros y Hy. rewrite Forall_forall in Hx, Hwl.
      apply to_int64_lt; auto.
  - by apply (sorted_lt_NoDup to_int64).
  - intros e. by apply Arrange_elem_of.
Qed.

Lemma Arrange_idempotent_sorted_nodup_witness :
  let m := [mkElem 30 5; mkElem 10 2; mkElem 30 5; mkElem 20 2; mkElem 4 (-1)] in
  Arrange MergeSort.impl (Arrange MergeSort.impl m) = Arrange MergeSort.impl m
  /\ StronglySorted (fun a b => to_int64 a < to_int64 b) (Arrange MergeSort.impl m)
  /\ StronglySorted line_then_offset (Arrange MergeSort.impl m)
  /\ NoDup (Arrange MergeSort.impl m)
  /\ (forall e, e ∈ Arrange MergeSort.impl m <-> e ∈ m).
Proof.
  apply (Arrange_idempotent_sorted_nodup MergeSort.impl).
  repeat constructor; vm_compute; congruence.
Defined.

Example Arrange_merge_sort :
  Arrange MergeSort.impl
    [mkElem 30 5; mkElem 10 2; mkElem 30 5; mkElem 20 2; mkElem 4 (-1)]
  = [mkElem 4 (-1); mkElem 10 2; mkElem 20 2; mkElem 30 5].
Proof. vm_compute. reflexivity. Qed.

End SrcMapFacts.

(** ** Facts on the compilation entry points *)

Module CompilerFacts.
Import SrcMap Compiled Optimizing.

Ltac run_pipeline :=
  unfold Compile, TryCompile, bind, ask, call, ret, LOG_FATAL; cbn [fst snd].

(** Bring the log of a run to the form [log ++ calls]. *)
Ltac log_calls := cbn [fst snd]; rewrite <- ?app_assoc; cbn [app].

Ltac no_delegate :=
  intros ?; rewrite ?not_elem_of_cons; repeat split;
  first [discriminate | apply not_elem_of_nil].

Section WithCollaborators.
Context {W : Type} (C : Collaborators W).



(** Every way [TryCompile] can end, with the calls it made. *)
Lemma TryCompile_cases args w log :
  let i0 := driver_instruction_set C w in
  let i := if decide (i0 = kArm) then kThumb2 else i0 in
  TryCompile C args (w, log) = (Returned None, (w, log))
    /\ i0 ∉ [kArm; kThumb2; kX86; kX86_64]
  \/ i ∈ [kThumb2; kX86; kX86_64] /\
     ((exists calls message,
        TryCompile C args (w, log) = (Fatal message, (after C calls w, log ++ calls))
        /\ (forall a, DelegateCompile a ∉ calls))
      \/ (exists calls,
        TryCompile C args (w, log) = (Returned None, (after C calls w, log ++ calls))
        /\ (calls = [MakeDexCompilationUnit args; BuildGraph args]
            \/ calls = [MakeDexCompilationUnit args; BuildGraph args;
                        CreateCodeGenerator i]))
      \/ (exists calls (with_src_map : bool),
        let w' := after C calls w in
        TryCompile C args (w, log)
        = (Returned (Some (SwapAllocCompiledMethod (library_sort C) i
                             (GetMemory C w')
                             (GetFrameSize C w') (codegen_GetCoreSpillMask C w') 0
                             (if with_src_map then src_mapping_table C w'
                              else [] : SrcMap)
                             (mapping_table C w')
                             (vmap_table C w') (gc_map C w') [])),
           (w', log ++ calls))
        /\ (calls = baseline_calls args i with_src_map
            \/ calls = optimized_calls args i with_src_map))).
Proof.
  intros i0 i. run_pipeline. fold i0. fold i.
  destruct (bool_decide (i <> kX86) && bool_decide (i <> kX86_64)
            && bool_decide (i <> kThumb2)) eqn:Hsup.
  { left. split; [done|].
    apply andb_prop in Hsup as [Hsup H3]. apply andb_prop in Hsup as [H1 H2].
    apply bool_decide_eq_true in H1, H2, H3. subst i.
    destruct (decide (i0 = kArm)) as [->|Harm]; [done|].
    rewrite !not_elem_of_cons. repeat split; try done. apply not_elem_of_nil. }
  right. split.
  { rewrite !elem_of_cons.
    destruct (decide (i = kX86)) as [->|H1]; [tauto|].
    destruct (decide (i = kX86_64)) as [->|H2]; [tauto|].
    destruct (decide (i = kThumb2)) as [->|H3]; [tauto|].
    rewrite !bool_decide_eq_true_2 in Hsup by done. done. }
  clear Hsup.
  destruct (graph_is_null C _) eqn:Hg; cbn [fst snd].
  { destruct (contains "00024opt_00024" _).
    - left. exists [MakeDexCompilationUnit args; BuildGraph args]. eexists.
      split; [by log_calls|no_delegate].
    - right. left. exists [MakeDexCompilationUnit args; BuildGraph args].
      split; [by log_calls|by left]. }
  destruct (codegen_is_null C _) eqn:Hc; cbn [fst snd].
  { destruct (contains "00024opt_00024" _).
    - left. exists [MakeDexCompilationUnit args; BuildGraph args;
                    CreateCodeGenerator i]. eexists.
      split; [by log_calls|no_delegate].
    - right. left. exists [MakeDexCompilationUnit args; BuildGraph args;
                           CreateCodeGenerator i].
      split; [by log_calls|by right]. }
  destruct (CanAllocateRegistersFor C _ i) eqn:Hcan; cbn [fst snd].
  { right. right. eexists (optimized_calls args i _), _.
    cbv zeta. split; [log_calls; reflexivity|by right]. }
  destruct (contains "00024reg_00024" _ && Supports C i) eqn:Hforce;
    cbn [fst snd].
  { left. exists [MakeDexCompilationUnit args; BuildGraph args;
                  CreateCodeGenerator i; DumpGraph (Literal "builder")].
    eexists. split; [by log_calls|no_delegate]. }
  right. right. eexists (baseline_calls args i _), _.
  cbv zeta. split; [log_calls; reflexivity|by left].
Qed.

(** C6.  When the driver's instruction set is none of ARM, Thumb2, x86 and
    x86_64, that is, not x86, x86_64 or Thumb2 once ARM has become Thumb2,
    [TryCompile] returns [nullptr]: no fatal error, no call on any
    collaborator, the state as it was. *)
Theorem TryCompile_unsupported_instruction_set args w log :
  driver_instruction_set C w ∉ [kArm; kThumb2; kX86; kX86_64] ->
  TryCompile C args (w, log) = (Returned None, (w, log)).
Proof.
  intros Hi. destruct (TryCompile_cases args w log) as [[H _]|[Hin _]];
    [done|].
  exfalso. apply Hi. cbv zeta in Hin.
  destruct (decide (driver_instruction_set C w = kArm)) as [->|_];
    [by left|by right].
Qed.

(** C4, as amended.  When the graph and the code generator exist, the
    allocator's check says no, and the method is not marked for forced
    optimization on a supported instruction set, [TryCompile] generates
    baseline code from the graph as built, before any graph transformation;
    it runs neither phi elimination nor register allocation nor optimized
    code generation; after baseline code generation it does build the
    dominator tree, convert to SSA, find the loops and analyze liveness. *)
Theorem TryCompile_baseline_path args w log :
  let i0 := driver_instruction_set C w in
  let i := if decide (i0 = kArm) then kThumb2 else i0 in
  let prologue :=
    [MakeDexCompilationUnit args; BuildGraph args; CreateCodeGenerator i;
     DumpGraph (Literal "builder")] in
  i ∈ [kThumb2; kX86; kX86_64] ->
  graph_is_null C (after C (take 2 prologue) w) = false ->
  codegen_is_null C (after C (take 3 prologue) w) = false ->
  CanAllocateRegistersFor C (after C prologue w) i = false ->
  contains "00024reg_00024" (GetSymbol C (after C (take 1 prologue) w))
    && Supports C i = false ->
  exists with_src_map m,
    let calls := baseline_calls args i with_src_map in
    TryCompile C args (w, log)
      = (Returned (Some m), (after C calls w, log ++ calls))
    /\ calls
       = prologue ++ CompileBaseline
           :: [BuildDominatorTree; TransformToSSA; DumpGraph (Literal "ssa");
               FindNaturalLoops; LivenessAnalyze; DumpGraph kLivenessPassName]
           ++ [BuildMappingTable with_src_map; BuildVMapTable; BuildNativeGCMap]
    /\ (SsaRedundantPhiElimination ∉ calls)
    /\ (SsaDeadPhiElimination ∉ calls)
    /\ (AllocateRegisters ∉ calls)
    /\ (CompileOptimized ∉ calls).
Proof.
  intros i0 i prologue Hin Hg Hc Hcan Hforce.
  cbn [take after fold_left prologue] in Hg, Hc, Hcan, Hforce.
  assert (bool_decide (i <> kX86) && bool_decide (i <> kX86_64)
          && bool_decide (i <> kThumb2) = false) as Hsup.
  { rewrite !elem_of_cons in Hin.
    destruct Hin as [->|[->|[->|Hin]]]; [done..|by apply elem_of_nil in Hin]. }
  run_pipeline. fold i0. fold i. rewrite Hsup. cbn [fst snd].
  rewrite Hg. cbn [fst snd]. rewrite Hc. cbn [fst snd].
  rewrite Hcan. cbn [fst snd]. rewrite Hforce. cbn [fst snd].
  eexists _, _. cbv zeta.
  split; [log_calls; reflexivity|]. split; [reflexivity|].
  unfold baseline_calls. rewrite !not_elem_of_cons.
  repeat split; first [discriminate | apply not_elem_of_nil].
Qed.

(** C5, as amended.  When [TryCompile] returns, it has made no call on the
    delegate.  If it returned a compiled method, [Compile] returns that
    method and makes no further call; if it returned [nullptr], [Compile]
    calls the delegate's [Compile] once, on the same arguments, and returns
    what the delegate returned, a method or [nullptr]. *)
Theorem Compile_falls_back_to_delegate args w log r w' log' :
  TryCompile C args (w, log) = (Returned r, (w', log')) ->
  (exists calls, log' = log ++ calls /\ forall a, DelegateCompile a ∉ calls)
  /\ Compile C args (w, log)
     = match r with
       | Some m => (Returned (Some m), (w', log'))
       | None =>
           let w'' := run C (DelegateCompile args) w' in
           (Returned (delegate_result C w''), (w'', log' ++ [DelegateCompile args]))
       end.
Proof.
  intros Htry. split.
  - destruct (TryCompile_cases args w log)
      as [[H _]|[_ [(calls & msg & H & _)|[(calls & H & Hc)|(calls & b & H & Hc)]]]];
      cbv zeta in H; rewrite H in Htry; simplify_eq.
    + exists []. split; [by rewrite app_nil_r|]. intros a. apply not_elem_of_nil.
    + exists calls. split; [done|]. destruct Hc as [->| ->]; no_delegate.
    + exists calls. split; [done|].
      destruct Hc as [->| ->]; unfold baseline_calls, optimized_calls; no_delegate.
  - unfold Compile, bind at 1. rewrite Htry. by destruct r.
Qed.

(** C7, as amended.  A compiled method [TryCompile] returns, from baseline
    or from optimized code generation, carries the code generator's frame
    size and its core spill mask; its floating-point spill mask is 0,
    whatever the code generator's is. *)
Theorem TryCompile_frame_size_and_spill_masks args w log m w' log' :
  TryCompile C args (w, log) = (Returned (Some m), (w', log')) ->
  GetFrameSizeInBytes m = GetFrameSize C w'
  /\ GetCoreSpillMask m = codegen_GetCoreSpillMask C w'
  /\ GetFpSpillMask m = 0
  /\ exists calls, log' = log ++ calls
       /\ ((CompileBaseline ∈ calls) /\ (CompileOptimized ∉ calls)
           \/ (CompileOptimized ∈ calls) /\ (CompileBaseline ∉ calls)).
Proof.
  intros Htry.
  destruct (TryCompile_cases args w log)
    as [[H _]|[_ [(calls & msg & H & _)|[(calls & H & Hc)|(calls & b & H & Hc)]]]];
    cbv zeta in H; rewrite H in Htry; simplify_eq.
  repeat split; try done. exists calls. split; [done|].
  destruct Hc as [->| ->]; [left|right];
    unfold baseline_calls, optimized_calls;
    (split; [rewrite !elem_of_cons; tauto|]);
    rewrite !not_elem_of_cons;
    repeat split; first [discriminate | apply not_elem_of_nil].
Qed.


End WithCollaborators.

(** *** The claims on scripted collaborators *)

Example contains_opt_marker :
  contains "00024opt_00024" "void Main.$opt$run()" = false
  /\ contains "00024opt_00024" "_ZN4Main13_00024opt_00024runEv" = true
  /\ contains "00024reg_00024" "_ZN4Main13_00024opt_00024runEv" = false.
Proof. repeat split; vm_compute; reflexivity. Qed.

(** The testing markers turn a failure into a fatal error, which [Compile]
    does not catch. *)
Example Compile_fatal_when_marked :
  Compile Script.collaborators Script.args (Script.marked_no_graph, [])
  = (Fatal "Could not build graph in optimizing compiler",
     (Script.marked_no_graph,
      [MakeDexCompilationUnit Script.args; BuildGraph Script.args]))
  /\ Compile Script.collaborators Script.args (Script.marked_no_registers, [])
     = (Fatal "Could not allocate registers in optimizing compiler",
        (Script.marked_no_registers,
         [MakeDexCompilationUnit Script.args; BuildGraph Script.args;
          CreateCodeGenerator kX86; DumpGraph (Literal "builder")])).
Proof. split; vm_compute; reflexivity. Qed.

Lemma TryCompile_unsupported_instruction_set_witness :
  TryCompile Script.collaborators Script.args (Script.other_isa, [])
  = (Returned None, (Script.other_isa, [])).
Proof.
  apply (TryCompile_unsupported_instruction_set
           Script.collaborators Script.args Script.other_isa []).
  cbn. rewrite !not_elem_of_cons.
  repeat split; first [discriminate | apply not_elem_of_nil].
Defined.

Lemma TryCompile_baseline_path_witness :
  exists with_src_map m,
    let calls := baseline_calls Script.args kX86 with_src_map in
    TryCompile Script.collaborators Script.args (Script.x86_baseline, [])
      = (Returned (Some m),
         (after Script.collaborators calls Script.x86_baseline, [] ++ calls))
    /\ calls
       = [MakeDexCompilationUnit Script.args; BuildGraph Script.args;
          CreateCodeGenerator kX86; DumpGraph (Literal "builder")]
         ++ CompileBaseline
           :: [BuildDominatorTree; TransformToSSA; DumpGraph (Literal "ssa");
               FindNaturalLoops; LivenessAnalyze; DumpGraph kLivenessPassName]
           ++ [BuildMappingTable with_src_map; BuildVMapTable; BuildNativeGCMap]
    /\ (SsaRedundantPhiElimination ∉ calls)
    /\ (SsaDeadPhiElimination ∉ calls)
    /\ (AllocateRegisters ∉ calls)
    /\ (CompileOptimized ∉ calls).
Proof.
  apply (TryCompile_baseline_path
           Script.collaborators Script.args Script.x86_baseline []).
  - cbn. right. by left.
  - reflexivity.
  - reflexivity.
  - reflexivity.
  - vm_compute. reflexivity.
Defined.

(** C4 as stated fails: on the baseline path the dominator tree, the SSA
    conversion, the loop finder and the liveness analysis do run. *)
Lemma baseline_path_runs_ssa_and_liveness :
  exists m calls,
    CanAllocateRegistersFor Script.collaborators Script.x86_baseline kX86 = false
    /\ contains "00024reg_00024" (Script.symbol Script.x86_baseline) = false
    /\ TryCompile Script.collaborators Script.args (Script.x86_baseline, [])
       = (Returned (Some m), (Script.x86_baseline, calls))
    /\ (CompileBaseline ∈ calls)
    /\ (BuildDominatorTree ∈ calls)
    /\ (TransformToSSA ∈ calls)
    /\ (FindNaturalLoops ∈ calls)
    /\ (LivenessAnalyze ∈ calls).
Proof.
  eexists _, _. split; [reflexivity|]. split; [vm_compute; reflexivity|].
  split; [vm_compute; reflexivity|].
  rewrite !elem_of_cons. tauto.
Qed.

Lemma Compile_falls_back_to_delegate_witness :
  (exists calls, [] = [] ++ calls /\ forall a, DelegateCompile a ∉ calls)
  /\ Compile Script.collaborators Script.args (Script.other_isa, [])
     = (Returned (Some Script.quick_method),
        (Script.other_isa, [DelegateCompile Script.args])).
Proof.
  apply (Compile_falls_back_to_delegate
           Script.collaborators Script.args Script.other_isa [] None Script.other_isa []).
  reflexivity.
Defined.

(** C5 as stated fails: when the delegate returns [nullptr] too, so does
    [Compile]. *)
Lemma Compile_absent_when_delegate_absent :
  TryCompile Script.collaborators Script.args (Script.other_isa_no_delegate, [])
  = (Returned None, (Script.other_isa_no_delegate, []))
  /\ Compile Script.collaborators Script.args (Script.other_isa_no_delegate, [])
     = (Returned None,
        (Script.other_isa_no_delegate, [DelegateCompile Script.args])).
Proof. split; vm_compute; reflexivity. Qed.

Example Compile_keeps_optimized_method :
  exists m,
    Compile Script.collaborators Script.args (Script.arm_optimized, [])
    = (Returned (Some m),
       (Script.arm_optimized, optimized_calls Script.args kThumb2 true))
    /\ GetQuickCode m = [Byte.x70; Byte.x47].
Proof. eexists. split; vm_compute; reflexivity. Qed.

Lemma TryCompile_frame_size_and_spill_masks_witness :
  exists m,
    TryCompile Script.collaborators Script.args (Script.arm_optimized, [])
    = (Returned (Some m),
       (Script.arm_optimized, optimized_calls Script.args kThumb2 true))
    /\ GetFrameSizeInBytes m = 32
    /\ GetCoreSpillMask m = 16384
    /\ GetFpSpillMask m = 0
    /\ exists calls, optimized_calls Script.args kThumb2 true = [] ++ calls
         /\ ((CompileBaseline ∈ calls) /\ (CompileOptimized ∉ calls)
             \/ (CompileOptimized ∈ calls) /\ (CompileBaseline ∉ calls)).
Proof.
  eexists. split; [vm_compute; reflexivity|].
  apply (TryCompile_frame_size_and_spill_masks
           Script.collaborators Script.args Script.arm_optimized [] _ Script.arm_optimized).
  vm_compute. reflexivity.
Defined.

(** C7 as stated fails: the code generator's floating-point mask is 0xFF00
    in both scripts, and the record's is 0, from baseline and from optimized
    code generation alike. *)
Lemma fp_spill_mask_is_not_the_code_generators :
  exists m_base m_opt w_base w_opt log_base log_opt,
    TryCompile Script.collaborators Script.args (Script.x86_baseline, [])
      = (Returned (Some m_base), (w_base, log_base))
    /\ TryCompile Script.collaborators Script.args (Script.arm_optimized, [])
      = (Returned (Some m_opt), (w_opt, log_opt))
    /\ codegen_fp_spill_mask Script.collaborators w_base = 65280
    /\ codegen_fp_spill_mask Script.collaborators w_opt = 65280
    /\ GetFpSpillMask m_base = 0
    /\ GetFpSpillMask m_opt = 0
    /\ GetFpSpillMask m_base <> codegen_fp_spill_mask Script.collaborators w_base
    /\ GetFpSpillMask m_opt <> codegen_fp_spill_mask Script.collaborators w_opt.
Proof.
  eexists _, _, _, _, _, _.
  split; [vm_compute; reflexivity|]. split; [vm_compute; reflexivity|].
  repeat split; try reflexivity; vm_compute; discriminate.
Qed.


End CompilerFacts.

(** ** Facts on [FindByTo] *)

Module LookupFacts.
Import Int IntFacts SrcMap SrcMapFacts Lookup.

(** *** Binary search *)

Section LowerBoundFacts.
Context {A : Type} (lt : A -> A -> bool).

(** The loop stays inside the window it was given. *)
Lemma lower_bound_loop_window fuel (v : list A) value first len :
  (first <= lower_bound_loop lt fuel v value first len <= first + len)%nat.
Proof.
  revert first len. induction fuel as [|fuel IH]; intros first len;
    cbn [lower_bound_loop]; [lia|].
  case_bool_decide as Hlen; [|lia].
  assert (len / 2 < len)%nat as Hhalf by (apply Nat.div_lt; lia).
  destruct (v !! (first + len / 2)%nat) as [x|]; [|lia].
  destruct (lt x value).
  - specialize (IH (first + len / 2 + 1)%nat (len - len / 2 - 1)%nat). lia.
  - specialize (IH first (len / 2)%nat). lia.
Qed.

(** On a window that [lt _ value] splits at [k], with enough fuel, the loop
    stops at [k]. *)
Lemma lower_bound_loop_point fuel (v : list A) value k first len :
  Forall (fun x => lt x value = true) (take k v) ->
  Forall (fun x => lt x value = false) (drop k v) ->
  (first <= k <= first + len)%nat -> (first + len <= length v)%nat ->
  (len <= fuel)%nat ->
  lower_bound_loop lt fuel v value first len = k.
Proof.
  intros Hlow Hhigh. revert first len.
  induction fuel as [|fuel IH]; intros first len Hk Hv Hfuel;
    cbn [lower_bound_loop]; [lia|].
  case_bool_decide as Hlen; [|lia].
  assert (len / 2 < len)%nat as Hhalf by (apply Nat.div_lt; lia).
  destruct (lookup_lt_is_Some_2 v (first + len / 2)%nat) as [x Hx]; [lia|].
  rewrite Hx. destruct (lt x value) eqn:E.
  - apply IH; [|lia..].
    destruct (decide (first + len / 2 < k)%nat) as [?|Hge]; [lia|]. exfalso.
    rewrite Forall_lookup in Hhigh.
    specialize (Hhigh (first + len / 2 - k)%nat x).
    rewrite lookup_drop in Hhigh.
    replace (k + (first + len / 2 - k))%nat with (first + len / 2)%nat
      in Hhigh by lia.
    specialize (Hhigh Hx). congruence.
  - apply IH; [|lia..].
    destruct (decide (k <= first + len / 2)%nat) as [?|Hlt]; [lia|]. exfalso.
    rewrite Forall_lookup in Hlow.
    specialize (Hlow (first + len / 2)%nat x).
    rewrite lookup_take_lt in Hlow by lia.
    specialize (Hlow Hx). congruence.
Qed.

Lemma std_lower_bound_le (v : list A) value :
  (std_lower_bound lt v value <= length v)%nat.
Proof.
  unfold std_lower_bound.
  pose proof (lower_bound_loop_window (length v) v value 0 (length v)). lia.
Qed.

Lemma std_lower_bound_point (v : list A) value k :
  Forall (fun x => lt x value = true) (take k v) ->
  Forall (fun x => lt x value = false) (drop k v) ->
  (k <= length v)%nat ->
  std_lower_bound lt v value = k.
Proof.
  intros Hlow Hhigh Hk. unfold std_lower_bound.
  apply lower_bound_loop_point; [done..|lia|lia|lia].
Qed.

End LowerBoundFacts.

(** A sorted list is split by a property that passes to smaller elements:
    the elements with the property come first. *)
Lemma sorted_split {A : Type} (R : relation A) (P : A -> Prop)
    `{forall x, Decision (P x)} (l : list A) :
  StronglySorted R l ->
  (forall x y, x ∈ l -> y ∈ l -> R x y -> P y -> P x) ->
  Forall P (take (length (filter P l)) l)
  /\ Forall (fun x => ~ P x) (drop (length (filter P l)) l).
Proof.
  induction 1 as [|x l Hl IH Hx]; intros Hdown; [by split|].
  destruct (decide (P x)) as [Hp|Hn].
  - rewrite filter_cons_True by done. cbn [length take drop].
    destruct IH as [IH1 IH2].
    { intros a b Ha Hb. apply Hdown; by right. }
    split; [by constructor|done].
  - assert (Forall (fun y => ~ P y) l) as Hall.
    { rewrite Forall_forall in Hx. apply Forall_forall. intros y Hy Hpy.
      apply Hn, (Hdown x y); [by left|by right|by apply Hx|done]. }
    rewrite filter_cons_False by done.
    rewrite (filter_none P l Hall). cbn [length take drop].
    split; [constructor|by constructor].
Qed.

(** *** [FindByTo] *)

(** The probe [SrcMapElem({0, to})] is above exactly the entries of an
    earlier line. *)
Lemma elem_lt_probe to e :
  wf_elem e -> is_s32 to -> elem_lt e (mkElem 0 to) = true <-> before_line to e.
Proof.
  intros He Hto. unfold elem_lt, before_line. rewrite Z.ltb_lt.
  rewrite to_int64_lt; [|done|split; [unfold is_u32; simpl; lia|done]].
  unfold line_then_offset. simpl. destruct He as [Hf _]. unfold is_u32 in Hf.
  lia.
Qed.

Lemma before_line_down to x y :
  wf_elem x -> wf_elem y ->
  to_int64 x <= to_int64 y -> before_line to y -> before_line to x.
Proof.
  intros Hx Hy. rewrite !to_int64_spec by done. unfold before_line.
  destruct Hx as [Hfx Htx], Hy as [Hfy Hty]. unfold is_u32, is_s32 in *. nia.
Qed.

(** On a map sorted by the key, [FindByTo] cuts between the earlier lines
    and the rest. *)
Lemma FindByTo_cut to (m : SrcMap) :
  Forall wf_elem m -> is_s32 to ->
  StronglySorted (fun a b => to_int64 a <= to_int64 b) m ->
  FindByTo to m = length (filter (before_line to) m)
  /\ Forall (before_line to) (take (FindByTo to m) m)
  /\ Forall (fun e => to <= to_ e) (drop (FindByTo to m) m).
Proof.
  intros Hwf Hto Hs.
  destruct (sorted_split _ (before_line to) m Hs) as [Hlow Hhigh].
  { intros x y Hx Hy. rewrite Forall_forall in Hwf.
    apply before_line_down; by apply Hwf. }
  rewrite Forall_forall in Hwf.
  assert (FindByTo to m = length (filter (before_line to) m)) as Hk.
  { apply std_lower_bound_point.
    - apply Forall_forall. intros e He. apply elem_lt_probe; [|done|].
      + apply Hwf.
        by apply (subseteq_take (length (filter (before_line to) m)) m).
      + rewrite Forall_forall in Hlow. by apply Hlow.
    - apply Forall_forall. intros e He.
      destruct (elem_lt e (mkElem 0 to)) eqn:E; [|done]. exfalso.
      assert (wf_elem e) as Hwe.
      { apply Hwf.
        by apply (subseteq_drop (length (filter (before_line to) m)) m). }
      apply (elem_lt_probe to e Hwe Hto) in E.
      rewrite Forall_forall in Hhigh. by apply (Hhigh e).
    - apply length_filter. }
  rewrite Hk. repeat split; try done.
  eapply Forall_impl; [exact Hhigh|]. unfold before_line. simpl. intros; lia.
Qed.

(** X1.  On a map sorted by the key of [operator<] (an arranged map is),
    [FindByTo(to)] is the number of entries of a line before [to]: the
    entries before the index are of an earlier line, those from the index
    on are of line [to] or later, and the index is [end()] when every line
    is earlier. *)
Theorem FindByTo_sorted to (m : SrcMap) :
  Forall wf_elem m -> is_s32 to ->
  StronglySorted (fun a b => to_int64 a <= to_int64 b) m ->
  FindByTo to m = length (filter (before_line to) m)
  /\ Forall (before_line to) (take (FindByTo to m) m)
  /\ Forall (fun e => to <= to_ e) (drop (FindByTo to m) m)
  /\ (Forall (before_line to) m -> FindByTo to m = length m).
Proof.
  intros Hwf Hto Hs.
  destruct (FindByTo_cut to m Hwf Hto Hs) as (Hk & Hlow & Hhigh).
  repeat split; try done.
  intros Hall. by rewrite Hk, (filter_all _ m Hall).
Qed.

Lemma FindByTo_sorted_witness :
  let m := [mkElem 4 (-1); mkElem 10 2; mkElem 20 2; mkElem 30 5] in
  FindByTo 2 m = length (filter (before_line 2) m)
  /\ Forall (before_line 2) (take (FindByTo 2 m) m)
  /\ Forall (fun e => 2 <= to_ e) (drop (FindByTo 2 m) m)
  /\ (Forall (before_line 2) m -> FindByTo 2 m = length m).
Proof.
  apply (FindByTo_sorted 2).
  - repeat constructor; vm_compute; congruence.
  - vm_compute. split; congruence.
  - repeat constructor; vm_compute; congruence.
Defined.

Example FindByTo_lines :
  let m := [mkElem 4 (-1); mkElem 10 2; mkElem 20 2; mkElem 30 5] in
  FindByTo (-7) m = 0%nat /\ FindByTo 2 m = 1%nat /\ FindByTo 3 m = 3%nat
  /\ FindByTo 5 m = 3%nat /\ FindByTo 6 m = 4%nat /\ FindByTo 2 [] = 0%nat.
Proof. repeat split; vm_compute; reflexivity. Qed.

(** X2.  [FindByTo] never returns an index past [end()], on any map,
    sorted or not. *)
Theorem FindByTo_in_range to (m : SrcMap) : (FindByTo to m <= size m)%nat.
Proof. apply std_lower_bound_le. Qed.

(** X3.  Looking up, in the arranged map, the line of an entry of the
    map finds an entry of the map with that line, the one with the smallest
    native offset. *)
Theorem FindByTo_Arrange sorter (m : SrcMap) e :
  Forall wf_elem m -> e ∈ m ->
  exists found,
    Arrange sorter m !! FindByTo (to_ e) (Arrange sorter m) = Some found
    /\ found ∈ m
    /\ to_ found = to_ e
    /\ (forall e', e' ∈ m -> to_ e' = to_ e -> from_ found <= from_ e').
Proof.
  intros Hwf He.
  set (arranged := Arrange sorter m).
  assert (Forall wf_elem arranged) as Hwfa.
  { apply Forall_forall. intros x Hx. rewrite Forall_forall in Hwf.
    apply Hwf. by apply (Arrange_subseteq sorter m). }
  pose proof (Arrange_sorted sorter m) as Hs. fold arranged in Hs.
  assert (is_s32 (to_ e)) as Hto.
  { rewrite Forall_forall in Hwf. by destruct (Hwf e He). }
  destruct (FindByTo_cut (to_ e) arranged Hwfa Hto
              (sorted_lt_le to_int64 arranged Hs)) as (_ & Hlow & Hhigh).
  set (i := FindByTo (to_ e) arranged) in *.
  assert (forall x, x ∈ arranged -> to_ x = to_ e -> x ∈ drop i arranged)
    as Hdrop.
  { intros x Hx Hline. rewrite <- (take_drop i arranged) in Hx.
    apply elem_of_app in Hx as [Hx|Hx]; [|done].
    rewrite Forall_forall in Hlow. specialize (Hlow x Hx).
    unfold before_line in Hlow. lia. }
  assert (e ∈ drop i arranged) as Hin.
  { apply Hdrop; [|done]. by apply Arrange_elem_of. }
  destruct (drop i arranged) as [|found rest] eqn:Ed.
  { by apply elem_of_nil in Hin. }
  assert (arranged !! i = Some found) as Hfound.
  { rewrite <- (Nat.add_0_r i), <- lookup_drop, Ed. done. }
  assert (StronglySorted (fun a b => to_int64 a < to_int64 b) (found :: rest))
    as Hsd.
  { rewrite <- Ed. rewrite <- (take_drop i arranged) in Hs.
    by apply StronglySorted_app_1_r in Hs. }
  assert (found ∈ arranged) as Hfa.
  { apply list_elem_of_lookup. eauto. }
  assert (forall x, x ∈ found :: rest -> to_ found <= to_ x
                    /\ (to_ found = to_ x -> from_ found <= from_ x)) as Hmin.
  { intros x Hx. apply elem_of_cons in Hx as [->|Hx]; [lia|].
    inversion_clear Hsd as [|? ? _ Hall]. rewrite Forall_forall in Hall.
    specialize (Hall x Hx).
    assert (x ∈ arranged) as Hxa.
    { rewrite <- (take_drop i arranged), Ed. apply elem_of_app. right.
      by right. }
    rewrite Forall_forall in Hwfa.
    apply to_int64_lt in Hall; [|by apply Hwfa..].
    unfold line_then_offset in Hall. lia. }
  exists found. split; [done|].
  split; [by apply (Arrange_subseteq sorter m)|].
  assert (to_ e <= to_ found) as Hge.
  { rewrite Forall_forall in Hhigh. apply Hhigh. by left. }
  pose proof (Hmin e Hin) as [Hle _].
  split; [lia|]. intros e' He' Hline.
  apply Hmin; [|lia]. apply Hdrop; [|done].
  by apply Arrange_elem_of.
Qed.

Lemma FindByTo_Arrange_witness :
  let m := [mkElem 30 5; mkElem 20 2; mkElem 10 2; mkElem 20 2] in
  exists found,
    Arrange MergeSort.impl m
      !! FindByTo (to_ (mkElem 20 2)) (Arrange MergeSort.impl m) = Some found
    /\ found ∈ m
    /\ to_ found = to_ (mkElem 20 2)
    /\ (forall e', e' ∈ m -> to_ e' = to_ (mkElem 20 2) ->
        from_ found <= from_ e').
Proof.
  apply (FindByTo_Arrange MergeSort.impl
           [mkElem 30 5; mkElem 20 2; mkElem 10 2; mkElem 20 2] (mkElem 20 2)).
  - repeat constructor; vm_compute; congruence.
  - rewrite !elem_of_cons. tauto.
Defined.

Example FindByTo_after_Arrange :
  let m := Arrange MergeSort.impl
             [mkElem 30 5; mkElem 20 2; mkElem 10 2; mkElem 20 2] in
  m = [mkElem 10 2; mkElem 20 2; mkElem 30 5]
  /\ m !! FindByTo 2 m = Some (mkElem 10 2)
  /\ m !! FindByTo 5 m = Some (mkElem 30 5)
  /\ m !! FindByTo 3 m = Some (mkElem 30 5)
  /\ m !! FindByTo 6 m = None.
Proof. repeat split; vm_compute; reflexivity. Qed.

End LookupFacts.

(** ** More facts on source maps *)

Module SrcMapMoreFacts.
Import Int IntFacts SrcMap SrcMapFacts.

(** *** The operators of [SrcMapElem] *)

(** X4.  For two elements within their field types, the conversion to
    [int64_t] does not overflow, [operator==] holds exactly of equal pairs,
    [operator<] is the order by source line first and native offset second,
    and of [a < b], [a == b], [b < a] exactly one holds. *)
Theorem SrcMapElem_operators a b :
  wf_elem a -> wf_elem b ->
  to_int64 a = to_ a * 2 ^ 32 + from_ a
  /\ is_s64 (to_int64 a)
  /\ (elem_eq a b = true <-> a = b)
  /\ (elem_lt a b = true <-> line_then_offset a b)
  /\ (elem_lt a b = true /\ elem_eq a b = false /\ elem_lt b a = false
      \/ elem_lt a b = false /\ elem_eq a b = true /\ elem_lt b a = false
      \/ elem_lt a b = false /\ elem_eq a b = false /\ elem_lt b a = true).
Proof.
  intros Ha Hb.
  split; [by apply to_int64_spec|]. split; [by apply to_int64_range|].
  split; [by apply elem_eq_true|].
  split; [unfold elem_lt; rewrite Z.ltb_lt; by apply to_int64_lt|].
  unfold elem_lt, elem_eq.
  destruct (Z.lt_total (to_int64 a) (to_int64 b)) as [H|[H|H]].
  - left. rewrite Z.ltb_lt, Z.eqb_neq, Z.ltb_ge. lia.
  - right. left. rewrite Z.ltb_ge, Z.eqb_eq, Z.ltb_ge. lia.
  - right. right. rewrite Z.ltb_ge, Z.eqb_neq, Z.ltb_lt. lia.
Qed.

Lemma SrcMapElem_operators_witness :
  let a := mkElem 4294967295 (-1) in
  let b := mkElem 0 0 in
  to_int64 a = to_ a * 2 ^ 32 + from_ a
  /\ is_s64 (to_int64 a)
  /\ (elem_eq a b = true <-> a = b)
  /\ (elem_lt a b = true <-> line_then_offset a b)
  /\ (elem_lt a b = true /\ elem_eq a b = false /\ elem_lt b a = false
      \/ elem_lt a b = false /\ elem_eq a b = true /\ elem_lt b a = false
      \/ elem_lt a b = false /\ elem_eq a b = false /\ elem_lt b a = true).
Proof.
  apply (SrcMapElem_operators (mkElem 4294967295 (-1)) (mkElem 0 0));
    unfold wf_elem, is_u32, is_s32; simpl; lia.
Defined.

(** X5.  The conversion to [uint8_t] is the sum of the two fields modulo
    256: the wrap-around of the 32-bit sum does not show in it. *)
Theorem to_uint8_mod_256 e :
  to_uint8 e = (from_ e + to_ e) mod 256 /\ 0 <= to_uint8 e < 256.
Proof.
  unfold to_uint8, wrap_u32.
  assert ((from_ e + to_ e) mod 2 ^ 32 mod 2 ^ 8 = (from_ e + to_ e) mod 256)
    as ->.
  { change (2 ^ 32) with (2 ^ 8 * 2 ^ 24). rewrite Z.rem_mul_r by lia.
    rewrite (Z.mul_comm (2 ^ 8)), Z_mod_plus_full, Z.mod_mod by lia. done. }
  split; [done|]. apply Z.mod_pos_bound. lia.
Qed.

(** *** More on [Arrange] *)

(** X6.  [Arrange] leaves a map as it is exactly when the keys of the map
    are strictly increasing. *)
Theorem Arrange_fixed_iff_sorted sorter (m : SrcMap) :
  Arrange sorter m = m
  <-> StronglySorted (fun a b => to_int64 a < to_int64 b) m.
Proof.
  split.
  - intros <-. apply Arrange_sorted.
  - apply Arrange_id.
Qed.

(** X7.  The arranged map depends on the set of pairs alone: two maps with
    the same pairs, in any order and any number of copies, arranged with
    any two conforming sorts, give the same sequence. *)
Theorem Arrange_canonical sorter1 sorter2 (m1 m2 : SrcMap) :
  Forall wf_elem m1 -> Forall wf_elem m2 ->
  (forall e, e ∈ m1 <-> e ∈ m2) ->
  Arrange sorter1 m1 = Arrange sorter2 m2.
Proof.
  intros Hwf1 Hwf2 Hsame.
  pose proof (Arrange_sorted sorter1 m1) as Hs1.
  pose proof (Arrange_sorted sorter2 m2) as Hs2.
  apply (StronglySorted_unique_strong (fun a b => to_int64 a < to_int64 b));
    [intros; lia|done..|].
  apply NoDup_Permutation; [by apply (sorted_lt_NoDup to_int64)..|].
  intros e. rewrite !Arrange_elem_of by done. apply Hsame.
Qed.

Lemma Arrange_canonical_witness :
  Arrange MergeSort.impl [mkElem 30 5; mkElem 10 2; mkElem 30 5]
  = Arrange MergeSort.impl [mkElem 10 2; mkElem 10 2; mkElem 30 5].
Proof.
  apply (Arrange_canonical MergeSort.impl MergeSort.impl).
  - repeat constructor; vm_compute; congruence.
  - repeat constructor; vm_compute; congruence.
  - intros e. rewrite !elem_of_cons. rewrite !elem_of_nil. tauto.
Defined.

(** X8.  [Arrange] never makes a map longer, and it keeps every entry,
    that is, gives a rearrangement of the map, exactly when the map holds
    no pair twice. *)
Theorem Arrange_length sorter (m : SrcMap) :
  Forall wf_elem m ->
  (length (Arrange sorter m) <= length m)%nat
  /\ (Arrange sorter m ≡ₚ m <-> NoDup m)
  /\ (length (Arrange sorter m) = length m <-> NoDup m).
Proof.
  intros Hwf.
  pose proof (sorted_lt_NoDup to_int64 _ (Arrange_sorted sorter m)) as Hnd.
  assert (Arrange sorter m ⊆+ m) as Hsub.
  { apply NoDup_submseteq; [done|]. apply Arrange_subseteq. }
  split; [by apply submseteq_length|].
  assert (Arrange sorter m ≡ₚ m <-> NoDup m) as Hiff.
  { split.
    - intros Hp. by rewrite <- Hp.
    - intros Hm. apply NoDup_Permutation; [done..|].
      intros e. by apply Arrange_elem_of. }
  split; [done|]. rewrite <- Hiff. split.
  - intros Hlen. by apply submseteq_length_Permutation; [|rewrite Hlen].
  - by intros ->.
Qed.

Lemma Arrange_length_witness :
  let m := [mkElem 30 5; mkElem 10 2; mkElem 30 5] in
  (length (Arrange MergeSort.impl m) <= length m)%nat
  /\ (Arrange MergeSort.impl m ≡ₚ m <-> NoDup m)
  /\ (length (Arrange MergeSort.impl m) = length m <-> NoDup m).
Proof.
  apply (Arrange_length MergeSort.impl).
  repeat constructor; vm_compute; congruence.
Defined.

(** *** More on [DeltaFormat] *)

Lemma NoDup_fmap_eq {A B : Type} (f : A -> B) (l : list A) x y :
  NoDup (f <$> l) -> x ∈ l -> y ∈ l -> f x = f y -> x = y.
Proof.
  induction l as [|z l IH]; intros Hnd Hx Hy Hf.
  { by apply elem_of_nil in Hx. }
  rewrite fmap_cons in Hnd. apply NoDup_cons in Hnd as [Hz Hnd].
  apply elem_of_cons in Hx as [->|Hx]; apply elem_of_cons in Hy as [->|Hy].
  - done.
  - exfalso. apply Hz. rewrite Hf. by apply list_elem_of_fmap_2.
  - exfalso. apply Hz. rewrite <- Hf. by apply list_elem_of_fmap_2.
  - by apply IH.
Qed.

(** With distinct offsets the sorted sequence is the same for every
    conforming sort and every order of the input. *)
Lemma SortByFrom_unique sorter1 sorter2 (m1 m2 : SrcMap) :
  m1 ≡ₚ m2 -> NoDup (from_ <$> m1) ->
  SortByFrom sorter1 m1 = SortByFrom sorter2 m2.
Proof.
  intros Hp Hnd.
  pose proof (SortByFrom_perm sorter1 m1) as Hp1.
  pose proof (SortByFrom_perm sorter2 m2) as Hp2.
  apply (StronglySorted_unique_strong (fun x y => from_ x <= from_ y)).
  - intros x1 x2 H1 H2 Hle Hge. rewrite Hp1 in H1. rewrite Hp2, <- Hp in H2.
    apply (NoDup_fmap_eq from_ m1); [done..|lia].
  - apply SortByFrom_sorted.
  - apply SortByFrom_sorted.
  - by rewrite Hp1, Hp2.
Qed.

(** X9.  When the native offsets of a map are pairwise distinct,
    [DeltaFormat] gives the same result for every order of the entries and
    every conforming [std::sort]. *)
Theorem DeltaFormat_order_independent
    sorter1 sorter2 dbg start highest_pc (m1 m2 : SrcMap) :
  m1 ≡ₚ m2 -> NoDup (from_ <$> m1) ->
  DeltaFormat sorter1 dbg start highest_pc m1
  = DeltaFormat sorter2 dbg start highest_pc m2.
Proof.
  intros Hp Hnd. destruct m1 as [|e1 m1].
  { apply Permutation_nil_l in Hp. by subst. }
  assert (m2 <> []) as Hm2.
  { intros ->. by apply Permutation_nil_r in Hp. }
  rewrite !DeltaFormat_stages by done.
  by rewrite (SortByFrom_unique sorter1 sorter2 _ m2 Hp Hnd).
Qed.

Lemma DeltaFormat_order_independent_witness :
  DeltaFormat MergeSort.impl true (mkElem 10 2) 25 scenario_E
  = DeltaFormat MergeSort.impl true (mkElem 10 2) 25
      [mkElem 10 2; mkElem 20 2; mkElem 30 5].
Proof.
  apply (DeltaFormat_order_independent MergeSort.impl MergeSort.impl).
  - unfold scenario_E.
    apply (Permutation_cons_append [mkElem 10 2; mkElem 20 2]).
  - vm_compute. repeat constructor; rewrite ?elem_of_cons, ?elem_of_nil;
      intros H; repeat destruct H as [H|H]; congruence.
Defined.

(** X10.  On a non-empty map, the number of entries [DeltaFormat] leaves is
    the number of entries below [highest_pc], and 1 when there is none. *)
Theorem DeltaFormat_length sorter dbg start highest_pc (m : SrcMap) d :
  m <> [] ->
  DeltaFormat sorter dbg start highest_pc m = Some d ->
  length d = Nat.max 1 (length (filter (below highest_pc) m))
  /\ (1 <= length d <= length m)%nat.
Proof.
  intros Hm Hd. rewrite DeltaFormat_stages in Hd by done. cbv zeta in Hd.
  destruct (dbg && _) in Hd; [done|]. simplify_eq.
  rewrite deltas_from_length.
  pose proof (SortByFrom_nonempty sorter m Hm) as Hne.
  rewrite (drop_highest_sorted _ _ Hne (SortByFrom_sorted sorter m)).
  pose proof (length_filter (below highest_pc) m) as Hle.
  assert (length (filter (below highest_pc) (SortByFrom sorter m))
          = length (filter (below highest_pc) m)) as Hf.
  { apply Permutation_length, filter_Permutation, SortByFrom_perm. }
  rewrite <- Hf in *.
  pose proof (SortByFrom_length sorter m) as Hlen.
  destruct (filter (below highest_pc) (SortByFrom sorter m)) as [|x f].
  - destruct (SortByFrom sorter m); [done|]. simpl in *. lia.
  - simpl in *. lia.
Qed.

Lemma DeltaFormat_length_witness :
  length [mkElem 0 0; mkElem 10 0]
  = Nat.max 1 (length (filter (below 25) scenario_E))
  /\ (1 <= length [mkElem 0 0; mkElem 10 0] <= length scenario_E)%nat.
Proof.
  apply (DeltaFormat_length MergeSort.impl true (mkElem 10 2) 25 scenario_E).
  - discriminate.
  - vm_compute. reflexivity.
Defined.

(** The first entry kept is an entry of the smallest native offset. *)
Lemma drop_highest_first sorter highest_pc (m : SrcMap) :
  m <> [] ->
  exists first rest,
    drop_highest highest_pc (SortByFrom sorter m) = first :: rest
    /\ first ∈ m
    /\ (forall e, e ∈ m -> from_ first <= from_ e).
Proof.
  intros Hm.
  pose proof (SortByFrom_nonempty sorter m Hm) as Hne.
  pose proof (SortByFrom_sorted sorter m) as Hs.
  pose proof (SortByFrom_perm sorter m) as Hp.
  destruct (SortByFrom sorter m) as [|x s]; [done|].
  destruct (drop_highest_cons highest_pc x s) as [r Hx].
  exists x, r. split; [done|]. split; [rewrite <- Hp; by left|].
  intros e He. rewrite <- Hp in He. inversion_clear Hs as [|? ? _ Hall].
  apply elem_of_cons in He as [->|He]; [lia|].
  rewrite Forall_forall in Hall. by apply Hall.
Qed.

(** X11.  On a non-empty map, a build with [DCHECK] aborts in
    [DeltaFormat] exactly when some entry has a native offset below
    [start]'s; a build without it always returns, and then the first delta
    has wrapped around: it is the smallest offset minus [start]'s plus
    [2^32]. *)
Theorem DeltaFormat_start_check sorter start highest_pc (m : SrcMap) :
  m <> [] -> Forall wf_elem m -> wf_elem start ->
  (DeltaFormat sorter true start highest_pc m = None
   <-> exists e, e ∈ m /\ from_ e < from_ start)
  /\ exists first d0 d,
       first ∈ m
       /\ (forall e, e ∈ m -> from_ first <= from_ e)
       /\ DeltaFormat sorter false start highest_pc m = Some (d0 :: d)
       /\ (from_ first < from_ start ->
           from_ d0 = from_ first - from_ start + 2 ^ 32)
       /\ (from_ start <= from_ first ->
           from_ d0 = from_ first - from_ start).
Proof.
  intros Hm Hwf Hstart.
  destruct (drop_highest_first sorter highest_pc m Hm)
    as (first & rest & Hkept & Hin & Hmin).
  rewrite !DeltaFormat_stages by done. cbv zeta. rewrite Hkept.
  cbn [lookup_total list_lookup_total andb deltas_from].
  rewrite Forall_forall in Hwf. destruct (Hwf first Hin) as [Hf _].
  destruct Hstart as [Hsf _]. unfold is_u32 in *.
  split.
  - destruct (from_ first >=? from_ start) eqn:E; cbn [negb].
    + apply Z.geb_le in E. split; [done|]. intros (e & He & Hlt).
      specialize (Hmin e He). lia.
    + split; [|done]. intros _. exists first. split; [done|].
      rewrite Z.geb_leb in E. apply Z.leb_gt in E. done.
  - exists first, (sub_elem first start), (deltas_from first rest).
    repeat split; try done; intros Hcmp; cbn; unfold wrap_u32.
    + rewrite <- (Z_mod_plus_full _ 1). apply Z.mod_small. lia.
    + apply Z.mod_small. lia.
Qed.

Lemma DeltaFormat_start_check_witness :
  (DeltaFormat MergeSort.impl true (mkElem 15 2) 25 scenario_E = None
   <-> exists e, e ∈ scenario_E /\ from_ e < from_ (mkElem 15 2))
  /\ exists first d0 d,
       first ∈ scenario_E
       /\ (forall e, e ∈ scenario_E -> from_ first <= from_ e)
       /\ DeltaFormat MergeSort.impl false (mkElem 15 2) 25 scenario_E
          = Some (d0 :: d)
       /\ (from_ first < from_ (mkElem 15 2) ->
           from_ d0 = from_ first - from_ (mkElem 15 2) + 2 ^ 32)
       /\ (from_ (mkElem 15 2) <= from_ first ->
           from_ d0 = from_ first - from_ (mkElem 15 2)).
Proof.
  apply (DeltaFormat_start_check MergeSort.impl (mkElem 15 2) 25 scenario_E).
  - discriminate.
  - repeat constructor; vm_compute; congruence.
  - unfold wf_elem, is_u32, is_s32; simpl; lia.
Defined.

Example DeltaFormat_wrapped_first_delta :
  DeltaFormat MergeSort.impl true (mkElem 15 2) 25 scenario_E = None
  /\ DeltaFormat MergeSort.impl false (mkElem 15 2) 25 scenario_E
     = Some [mkElem 4294967291 0; mkElem 10 0].
Proof. split; vm_compute; reflexivity. Qed.

(** The gaps add up to the distance from [prev] to the last offset. *)
Lemma offset_gaps_sum prev (l : SrcMap) :
  prev + foldr Z.add 0 (offset_gaps prev l)
  = from_ (default (mkElem prev 0) (last l)).
Proof.
  revert prev. induction l as [|x l IH]; intros prev; simpl; [lia|].
  specialize (IH (from_ x)).
  destruct l as [|y l]; [simpl in *; lia|].
  rewrite last_cons_cons.
  destruct (last (y :: l)) eqn:E; [simpl in *; lia|].
  by apply last_None in E.
Qed.

(** X12.  When no entry has a native offset below [start]'s, no
    subtraction of offsets wraps around: the offset deltas [DeltaFormat]
    leaves are the exact gaps between consecutive offsets kept, none is
    negative, and added to [start]'s offset they give the last offset
    kept. *)
Theorem DeltaFormat_offset_gaps sorter dbg start highest_pc (m : SrcMap) :
  m <> [] -> Forall wf_elem m -> 0 <= from_ start ->
  (forall e, e ∈ m -> from_ start <= from_ e) ->
  exists d,
    let kept := drop_highest highest_pc (SortByFrom sorter m) in
    DeltaFormat sorter dbg start highest_pc m = Some d
    /\ from_ <$> d = offset_gaps (from_ start) kept
    /\ Forall (fun gap => 0 <= gap) (from_ <$> d)
    /\ from_ start + foldr Z.add 0 (from_ <$> d)
       = from_ (default start (last kept)).
Proof.
  intros Hm Hwf H0 Hpre.
  destruct (drop_highest_first sorter highest_pc m Hm)
    as (first & rest & Hkept & Hin & Hmin).
  pose proof (SortByFrom_nonempty sorter m Hm) as Hne.
  assert (StronglySorted (fun x y => from_ x <= from_ y) (first :: rest))
    as Hs.
  { rewrite <- Hkept, drop_highest_take by done.
    pose proof (SortByFrom_sorted sorter m) as Hsorted.
    rewrite <- (take_drop
      (S (scan_highest (SortByFrom sorter m) highest_pc
            (length (SortByFrom sorter m) - 1))) (SortByFrom sorter m))
      in Hsorted.
    by apply StronglySorted_app_1_l in Hsorted. }
  assert (Forall wf_elem (first :: rest)) as Hwk.
  { rewrite <- Hkept. apply drop_highest_wf; [done|].
    by apply SortByFrom_wf. }
  destruct (deltas_from_offsets_exact start (first :: rest) Hs Hwk H0)
    as [Hgaps Hpos].
  { intros e He. simplify_eq/=. by apply Hpre. }
  rewrite DeltaFormat_stages by done. cbv zeta. rewrite Hkept.
  cbn [lookup_total list_lookup_total].
  assert ((from_ first >=? from_ start) = true) as ->
    by (apply Z.geb_le; by apply Hpre).
  rewrite andb_false_r. eexists. split; [done|].
  rewrite Hgaps. split; [done|]. split; [done|].
  rewrite offset_gaps_sum.
  destruct (last (first :: rest)) eqn:E; [done|]. by apply last_None in E.
Qed.

Lemma DeltaFormat_offset_gaps_witness :
  exists d,
    let kept := drop_highest 25 (SortByFrom MergeSort.impl scenario_E) in
    DeltaFormat MergeSort.impl true (mkElem 10 2) 25 scenario_E = Some d
    /\ from_ <$> d = offset_gaps (from_ (mkElem 10 2)) kept
    /\ Forall (fun gap => 0 <= gap) (from_ <$> d)
    /\ from_ (mkElem 10 2) + foldr Z.add 0 (from_ <$> d)
       = from_ (default (mkElem 10 2) (last kept)).
Proof.
  apply (DeltaFormat_offset_gaps MergeSort.impl true (mkElem 10 2) 25
           scenario_E).
  - discriminate.
  - repeat constructor; vm_compute; congruence.
  - simpl. lia.
  - intros e He. unfold scenario_E in He.
    rewrite !elem_of_cons, elem_of_nil in He.
    destruct He as [->|[->|[->|[]]]]; simpl; lia.
Defined.

End SrcMapMoreFacts.

(** ** The outcomes of [TryCompile] and [Compile] *)

Module OutcomeFacts.
Import SrcMap SrcMapFacts Compiled Optimizing CompilerFacts Decisions.

(** *** [TryCompile] by its decisions *)

Section DecisionFacts.
Context {W : Type} (C : Collaborators W).

Lemma supported_test w :
  bool_decide (target C w <> kX86) && bool_decide (target C w <> kX86_64)
  && bool_decide (target C w <> kThumb2)
  = negb (bool_decide (supported C w)).
Proof.
  assert (supported C w <-> target C w = kThumb2 \/ target C w = kX86
                            \/ target C w = kX86_64) as Hs.
  { unfold supported. rewrite !elem_of_cons, elem_of_nil. tauto. }
  destruct (decide (supported C w)) as [Hyes|Hno].
  - rewrite (bool_decide_eq_true_2 (supported C w)) by done. cbn [negb].
    apply Hs in Hyes. destruct Hyes as [-> | [-> | ->]]; done.
  - rewrite (bool_decide_eq_false_2 (supported C w)) by done. cbn [negb].
    rewrite !bool_decide_eq_true_2; [done|intros Heq; apply Hno, Hs; tauto..].
Qed.

(** The whole of [TryCompile], one outcome for each way through it. *)
Lemma TryCompile_decisions args w log :
  TryCompile C args (w, log)
  = if bool_decide (supported C w) then
      if no_graph C args w then
        let calls := take 2 (prologue C args w) in
        if shouldCompile C args w
        then (Fatal "Could not build graph in optimizing compiler",
              (after C calls w, log ++ calls))
        else (Returned None, (after C calls w, log ++ calls))
      else if no_codegen C args w then
        let calls := take 3 (prologue C args w) in
        if shouldCompile C args w
        then (Fatal "Could not find code generator for optimizing compiler",
              (after C calls w, log ++ calls))
        else (Returned None, (after C calls w, log ++ calls))
      else if can_allocate C args w then
        let calls := optimized_path C args w in
        (Returned (Some (compiled C (source_map_wanted C optimized_body args w)
                           w (after C calls w))),
         (after C calls w, log ++ calls))
      else if allocation_forced C args w then
        let calls := prologue C args w in
        (Fatal "Could not allocate registers in optimizing compiler",
         (after C calls w, log ++ calls))
      else
        let calls := baseline_path C args w in
        (Returned (Some (compiled C (source_map_wanted C baseline_body args w)
                           w (after C calls w))),
         (after C calls w, log ++ calls))
    else (Returned None, (w, log)).
Proof.
  unfold allocation_forced, can_allocate, no_codegen, no_graph, shouldCompile,
    shouldOptimize, optimized_path, baseline_path, compiled,
    source_map_wanted, prologue.
  run_pipeline. fold (target C w). rewrite supported_test.
  destruct (bool_decide (supported C w)); cbn [negb]; [|done].
  cbn [take after fold_left app optimized_body baseline_body table_calls].
  destruct (graph_is_null C _); cbn [fst snd].
  { destruct (contains "00024opt_00024" _); by log_calls. }
  destruct (codegen_is_null C _); cbn [fst snd].
  { destruct (contains "00024opt_00024" _); by log_calls. }
  destruct (CanAllocateRegistersFor C _ _); cbn [fst snd].
  { by log_calls. }
  destruct (contains "00024reg_00024" _ && Supports C _); cbn [fst snd];
    by log_calls.
Qed.

End DecisionFacts.

Ltac decide_outcome C args w :=
  destruct (bool_decide (supported C w)) eqn:Hsup;
  [apply bool_decide_eq_true in Hsup
  |apply bool_decide_eq_false in Hsup];
  destruct (no_graph C args w) eqn:Hgraph;
  destruct (no_codegen C args w) eqn:Hcodegen;
  destruct (can_allocate C args w) eqn:Hcan;
  destruct (shouldCompile C args w) eqn:Hopt;
  destruct (allocation_forced C args w) eqn:Hforced;
  cbv zeta.

Section Outcomes.
Context {W : Type} (C : Collaborators W).

(** X13.  When the graph and the code generator exist and the allocator's
    check says yes, [TryCompile] returns a compiled method after exactly
    the calls of the optimizing path: SSA conversion, the two phi
    eliminations, liveness, register allocation, then optimized code
    generation, then the tables.  Baseline code generation is not run, and
    the testing markers play no part. *)
Theorem TryCompile_optimized_path args w log :
  supported C w ->
  no_graph C args w = false -> no_codegen C args w = false ->
  can_allocate C args w = true ->
  let calls := optimized_path C args w in
  TryCompile C args (w, log)
    = (Returned (Some (compiled C (source_map_wanted C optimized_body args w)
                         w (after C calls w))),
       (after C calls w, log ++ calls))
  /\ (exists with_src_map,
        calls = optimized_calls args (target C w) with_src_map
        /\ calls = prologue C args w ++ optimized_body
                   ++ table_calls with_src_map)
  /\ (CompileBaseline ∉ calls).
Proof.
  intros Hsup Hg Hc Hcan calls. rewrite TryCompile_decisions.
  rewrite bool_decide_eq_true_2, Hg, Hc, Hcan by done. cbv zeta.
  split; [done|]. split.
  - eexists. split; [reflexivity|]. unfold calls, optimized_path.
    by rewrite <- app_assoc.
  - unfold calls, optimized_path, prologue, optimized_body, table_calls.
    cbn [app]. rewrite !not_elem_of_cons.
    repeat split; first [discriminate | apply not_elem_of_nil].
Qed.

(** X14.  [TryCompile] ends in a fatal error exactly when the instruction
    set is supported and either the method is marked for this compiler and
    the graph or the code generator is missing, or both exist, the
    allocator's check says no and the forced-optimize marker applies.
    Without a marker it never does. *)
Theorem TryCompile_fatal_iff args w log :
  (exists message s, TryCompile C args (w, log) = (Fatal message, s))
  <-> supported C w
      /\ (shouldCompile C args w = true
          /\ (no_graph C args w = true \/ no_codegen C args w = true)
          \/ no_graph C args w = false /\ no_codegen C args w = false
             /\ can_allocate C args w = false
             /\ allocation_forced C args w = true).
Proof.
  rewrite TryCompile_decisions.
  decide_outcome C args w; split;
    try (intros (message & s & Heq); discriminate Heq);
    try (intros [Hs Hcase]; try done;
         destruct Hcase as [[? [?|?]]|(? & ? & ? & ?)]; congruence);
    intros _; try (by eexists _, _);
    (split; [done|]); tauto.
Qed.

(** X15.  [TryCompile] returns [nullptr] exactly when the instruction set
    is not supported, or the graph or the code generator is missing for a
    method not marked for this compiler.  Once both exist it never returns
    [nullptr], whatever the allocator's check says. *)
Theorem TryCompile_nullptr_iff args w log :
  (exists s, TryCompile C args (w, log) = (Returned None, s))
  <-> ~ supported C w
      \/ shouldCompile C args w = false
         /\ (no_graph C args w = true \/ no_codegen C args w = true).
Proof.
  rewrite TryCompile_decisions.
  decide_outcome C args w; split;
    try (intros (s & Heq); discriminate Heq);
    try (intros [Hs|[? [?|?]]]; congruence || done);
    intros _; try (by eexists); tauto.
Qed.

(** X16.  A compiled method [TryCompile] returns carries the instruction
    set [TryCompile] worked with, one of Thumb2, x86 and x86_64; its code
    and its mapping, vmap and GC tables are those of the allocator and the
    code generator when [TryCompile] returns, and it has no call-frame
    information.  Its source map is the arranged form of what the code
    generator wrote, when [BuildMappingTable] was given the source map, and
    empty when it was not; either way it has strictly increasing keys. *)
Theorem TryCompile_record args w log m w' log' :
  TryCompile C args (w, log) = (Returned (Some m), (w', log')) ->
  GetInstructionSet m = target C w
  /\ GetInstructionSet m ∈ [kThumb2; kX86; kX86_64]
  /\ GetQuickCode m = GetMemory C w'
  /\ GetMappingTable m = mapping_table C w'
  /\ GetVmapTable m = vmap_table C w'
  /\ GetGcMap m = gc_map C w'
  /\ GetCFIInfo m = []
  /\ exists with_src_map calls,
       log' = log ++ calls
       /\ (BuildMappingTable with_src_map ∈ calls)
       /\ GetSrcMappingTable m
          = Arrange (library_sort C)
              (if with_src_map then src_mapping_table C w' else [])
       /\ (with_src_map = false -> GetSrcMappingTable m = [])
       /\ StronglySorted (fun a b => to_int64 a < to_int64 b)
            (GetSrcMappingTable m).
Proof.
  rewrite TryCompile_decisions.
  decide_outcome C args w; intros Heq; simplify_eq;
    (repeat (split; [first [exact Hsup | reflexivity]|]));
    eexists _, _; (split; [reflexivity|]);
    (split; [unfold optimized_path, baseline_path, table_calls;
             cbv zeta; rewrite !elem_of_app, !elem_of_cons; tauto|]);
    (split; [reflexivity|]);
    (split; [intros Hoff;
             unfold GetSrcMappingTable, compiled, SwapAllocCompiledMethod,
               source_map_wanted;
             cbn [src_mapping_table_]; by rewrite Hoff|]);
    apply Arrange_sorted.
Qed.

(** X17.  In a compilation that succeeds, [BuildMappingTable] is called
    once, after code generation, and it is given the source map exactly
    when debug symbols are asked for at that moment; the two other tables
    are built after it. *)
Theorem TryCompile_source_map_on_request args w log m w' log' :
  TryCompile C args (w, log) = (Returned (Some m), (w', log')) ->
  exists calls,
    let with_src_map := GetIncludeDebugSymbols C (after C calls w) in
    log' = log ++ calls ++ table_calls with_src_map
    /\ w' = after C (calls ++ table_calls with_src_map) w
    /\ (CompileOptimized ∈ calls \/ CompileBaseline ∈ calls)
    /\ (forall b, BuildMappingTable b ∉ calls).
Proof.
  rewrite TryCompile_decisions.
  decide_outcome C args w; intros Heq; simplify_eq.
  all: match goal with
       | H : can_allocate _ _ _ = true |- _ =>
           exists (prologue C args w ++ optimized_body)
       | _ => exists (prologue C args w ++ baseline_body)
       end.
  all: unfold optimized_path, baseline_path; cbv zeta.
  all: split; [reflexivity|]; split; [reflexivity|].
  all: unfold prologue, optimized_body, baseline_body; cbn [app].
  all: split; [rewrite !elem_of_cons; tauto|].
  all: intros b; rewrite !not_elem_of_cons.
  all: repeat split; first [discriminate | apply not_elem_of_nil].
Qed.

(** X18.  A fatal error in [TryCompile] is a fatal error of [Compile],
    with the same message and in the same state: the delegate is not
    called. *)
Theorem Compile_fatal args w log message w' log' :
  TryCompile C args (w, log) = (Fatal message, (w', log')) ->
  Compile C args (w, log) = (Fatal message, (w', log'))
  /\ exists calls, log' = log ++ calls /\ forall a, DelegateCompile a ∉ calls.
Proof.
  intros Htry. split.
  { unfold Compile, bind at 1. by rewrite Htry. }
  rewrite TryCompile_decisions in Htry.
  decide_outcome C args w; cbv zeta in Htry; simplify_eq;
    eexists; (split; [reflexivity|]);
    unfold prologue; cbn [take]; no_delegate.
Qed.

(** X19.  On an instruction set that is not supported, [Compile] is the
    delegate's [Compile]: one call on the delegate, with the arguments
    given, and its result. *)
Theorem Compile_unsupported_is_delegate args w log :
  ~ supported C w ->
  let w' := run C (DelegateCompile args) w in
  Compile C args (w, log)
  = (Returned (delegate_result C w'), (w', log ++ [DelegateCompile args])).
Proof.
  intros Hno. unfold Compile, bind at 1. rewrite TryCompile_decisions.
  by rewrite bool_decide_eq_false_2.
Qed.

(** X20.  For a method that carries no testing marker, [TryCompile] and
    [Compile] both return: neither ends in a fatal error. *)
Theorem Compile_returns_without_marker args w log :
  shouldCompile C args w = false -> shouldOptimize C args w = false ->
  (exists r s, TryCompile C args (w, log) = (Returned r, s))
  /\ (exists r s, Compile C args (w, log) = (Returned r, s)).
Proof.
  intros Hopt Hreg.
  assert (exists r s, TryCompile C args (w, log) = (Returned r, s))
    as (r & [w' log'] & Htry).
  { rewrite TryCompile_decisions. unfold allocation_forced.
    rewrite Hopt, Hreg. cbn [andb]. cbv zeta.
    destruct (bool_decide _); [|by eexists _, _].
    destruct (no_graph C args w); [by eexists _, _|].
    destruct (no_codegen C args w); [by eexists _, _|].
    destruct (can_allocate C args w); by eexists _, _. }
  split; [by eexists _, _|].
  unfold Compile, bind at 1. rewrite Htry.
  destruct r; by eexists _, _.
Qed.

End Outcomes.

(** *** The outcomes on scripted collaborators *)

Lemma TryCompile_optimized_path_witness :
  let calls := optimized_path Script.collaborators Script.args
                 Script.arm_optimized in
  TryCompile Script.collaborators Script.args (Script.arm_optimized, [])
    = (Returned (Some (compiled Script.collaborators
                         (source_map_wanted Script.collaborators
                            optimized_body Script.args Script.arm_optimized)
                         Script.arm_optimized
                         (after Script.collaborators calls
                            Script.arm_optimized))),
       (after Script.collaborators calls Script.arm_optimized, [] ++ calls))
  /\ (exists with_src_map,
        calls = optimized_calls Script.args
                  (target Script.collaborators Script.arm_optimized)
                  with_src_map
        /\ calls = prologue Script.collaborators Script.args
                     Script.arm_optimized
                   ++ optimized_body ++ table_calls with_src_map)
  /\ (CompileBaseline ∉ calls).
Proof.
  apply (TryCompile_optimized_path Script.collaborators Script.args
           Script.arm_optimized []).
  - unfold supported. vm_compute. by left.
  - reflexivity.
  - reflexivity.
  - reflexivity.
Defined.

Lemma TryCompile_record_witness :
  exists m,
    TryCompile TableScript.collaborators Script.args (Script.arm_optimized, [])
    = (Returned (Some m),
       (Script.arm_optimized, optimized_calls Script.args kThumb2 true))
    /\ GetInstructionSet m
       = target TableScript.collaborators Script.arm_optimized
    /\ GetInstructionSet m ∈ [kThumb2; kX86; kX86_64]
    /\ GetQuickCode m = [Byte.x70; Byte.x47]
    /\ GetMappingTable m = [Byte.x02; Byte.x0a; Byte.x00]
    /\ GetVmapTable m = [Byte.x01; Byte.x05]
    /\ GetGcMap m = [Byte.x00; Byte.x01]
    /\ GetCFIInfo m = []
    /\ exists with_src_map calls,
         optimized_calls Script.args kThumb2 true = [] ++ calls
         /\ (BuildMappingTable with_src_map ∈ calls)
         /\ GetSrcMappingTable m
            = Arrange MergeSort.impl
                (if with_src_map then TableScript.raw_src_map else [])
         /\ (with_src_map = false -> GetSrcMappingTable m = [])
         /\ StronglySorted (fun a b => to_int64 a < to_int64 b)
              (GetSrcMappingTable m).
Proof.
  eexists. split; [vm_compute; reflexivity|].
  apply (TryCompile_record TableScript.collaborators Script.args
           Script.arm_optimized [] _ Script.arm_optimized
           (optimized_calls Script.args kThumb2 true)).
  vm_compute. reflexivity.
Defined.

(** The source map of the record: arranged when debug symbols are on,
    empty when they are off, whatever the code generator holds. *)
Example TryCompile_source_map_of_record :
  (exists m s,
     TryCompile TableScript.collaborators Script.args
       (Script.arm_optimized, []) = (Returned (Some m), s)
     /\ GetSrcMappingTable m = [mkElem 10 2; mkElem 20 2; mkElem 30 5])
  /\ (exists m s,
        TryCompile TableScript.collaborators Script.args
          (Script.x86_baseline, []) = (Returned (Some m), s)
        /\ GetSrcMappingTable m = []
        /\ GetMappingTable m = [Byte.x02; Byte.x0a; Byte.x00]).
Proof. split; eexists _, _; repeat split; vm_compute; reflexivity. Qed.

Lemma TryCompile_source_map_on_request_witness :
  exists calls,
    let with_src_map :=
      GetIncludeDebugSymbols Script.collaborators
        (after Script.collaborators calls Script.arm_optimized) in
    optimized_calls Script.args kThumb2 true
      = [] ++ calls ++ table_calls with_src_map
    /\ Script.arm_optimized
       = after Script.collaborators (calls ++ table_calls with_src_map)
           Script.arm_optimized
    /\ (CompileOptimized ∈ calls \/ CompileBaseline ∈ calls)
    /\ (forall b, BuildMappingTable b ∉ calls).
Proof.
  apply (TryCompile_source_map_on_request Script.collaborators Script.args
           Script.arm_optimized []
           (compiled Script.collaborators true Script.arm_optimized
              Script.arm_optimized)
           Script.arm_optimized (optimized_calls Script.args kThumb2 true)).
  vm_compute. reflexivity.
Defined.

Lemma Compile_fatal_witness :
  Compile Script.collaborators Script.args (Script.marked_no_graph, [])
  = (Fatal "Could not build graph in optimizing compiler",
     (Script.marked_no_graph,
      [MakeDexCompilationUnit Script.args; BuildGraph Script.args]))
  /\ exists calls,
       [MakeDexCompilationUnit Script.args; BuildGraph Script.args]
       = [] ++ calls
       /\ forall a, DelegateCompile a ∉ calls.
Proof.
  apply (Compile_fatal Script.collaborators Script.args
           Script.marked_no_graph []
           "Could not build graph in optimizing compiler"
           Script.marked_no_graph
           [MakeDexCompilationUnit Script.args; BuildGraph Script.args]).
  vm_compute. reflexivity.
Defined.

Lemma Compile_unsupported_is_delegate_witness :
  Compile Script.collaborators Script.args (Script.other_isa, [])
  = (Returned (Some Script.quick_method),
     (Script.other_isa, [DelegateCompile Script.args])).
Proof.
  apply (Compile_unsupported_is_delegate Script.collaborators Script.args
           Script.other_isa []).
  unfold supported, target. cbn. rewrite !elem_of_cons, elem_of_nil.
  intros [H|[H|[H|[]]]]; discriminate H.
Defined.

Lemma Compile_returns_without_marker_witness :
  (exists r s,
     TryCompile Script.collaborators Script.args (Script.x86_baseline, [])
     = (Returned r, s))
  /\ (exists r s,
        Compile Script.collaborators Script.args (Script.x86_baseline, [])
        = (Returned r, s)).
Proof.
  apply (Compile_returns_without_marker Script.collaborators Script.args
           Script.x86_baseline []); vm_compute; reflexivity.
Defined.

End OutcomeFacts.

(** ** Facts on [CodeVectorAllocator] *)

Module AllocatorFacts.

(** X21.  After any non-empty sequence of [Allocate] calls on a fresh
    allocator, [GetSize] is the size last asked for, and it is the length
    of [GetMemory]; before the first call [GetSize] is not defined. *)
Theorem Allocate_size_is_length (sizes : list nat) :
  sizes <> [] ->
  let a := CodeVectorAllocator.allocate_all sizes in
  CodeVectorAllocator.GetSize a = last sizes
  /\ CodeVectorAllocator.GetSize a
     = Some (length (CodeVectorAllocator.GetMemory a))
  /\ CodeVectorAllocator.GetSize CodeVectorAllocator.create = None.
Proof.
  intros Hs. destruct sizes as [|n sizes _] using rev_ind; [done|].
  cbv zeta. unfold CodeVectorAllocator.allocate_all.
  rewrite fold_left_app. cbn [fold_left].
  unfold CodeVectorAllocator.GetSize, CodeVectorAllocator.GetMemory,
    CodeVectorAllocator.Allocate. cbn.
  by rewrite last_snoc, length_resize.
Qed.

Lemma Allocate_size_is_length_witness :
  let a := CodeVectorAllocator.allocate_all [8; 3; 5]%nat in
  CodeVectorAllocator.GetSize a = last [8; 3; 5]%nat
  /\ CodeVectorAllocator.GetSize a
     = Some (length (CodeVectorAllocator.GetMemory a))
  /\ CodeVectorAllocator.GetSize CodeVectorAllocator.create = None.
Proof. apply (Allocate_size_is_length [8; 3; 5]%nat). discriminate. Defined.

End AllocatorFacts.
